(** * Registry: a self-indexing array (src/kibana/utils/registry/registry.js)

    A shallow embedding of Kibana's [Registry] class and a verification of
    its cache-invalidation protocol.

    A [Registry] is an array-like object that keeps a plain mirror of its
    elements in [this.raw] and exposes lazily computed views ([_.groupBy],
    [_.indexBy], [_.sortBy]) through accessor properties installed with
    [Object.defineProperty].  Each accessor closes over a private [cache]
    variable; the six side-effecting array methods are wrapped so that they
    run on the instance, clear every cache, and run again on [this.raw].

    Modelling choices:
    - the instance's indexed elements (with its [length]) and [this.raw] are
      two separate [list]s;
    - the accessor properties are a [gmap] from property name to the closure
      state of the accessor (the captured [op], [from] and [cache]);
    - JavaScript exceptions are an exception-and-state monad in which the
      state reached at the [throw] survives;
    - objects returned by the view builders live in a heap and are referred
      to by address, so that reference identity ([===]) can be stated;
    - element values are an abstract type [T]; values resolved by a path
      getter are an abstract type [V].

    Property names produced by the inflector are assumed not to be array
    indices nor one of [length], [raw], [_indexNames] or a method name: the
    accessor properties and the other fields of the instance are kept in
    separate components of the state.  Client code uses an instance by
    calling its methods and by reading or assigning its views; it does not
    write to [raw], [_indexNames], the indexed elements or the method names
    directly. *)

From Stdlib Require Import ZArith Lia.
From stdpp Require Import base option list gmap strings sorting pretty.

(** ** External collaborators *)

(** The modules [utils/registry/_path_getter] and [utils/registry/_inflector]
    are required by [registry.js] but are not part of the verified file; they
    are taken as parameters.  [propertyKey] is JavaScript's conversion of a
    value to a property name, used when a resolved value keys an object, and
    [key_le] is the ascending order in which resolved values are sorted. *)
Class Collaborators (T V : Type) := {
  pathGetter : string → T → V;
  inflectIndex : string → string;   (* inflector('by') *)
  inflectOrder : string → string;   (* inflector('in', 'Order') *)
  propertyKey : V → string;
  key_le : V → V → bool
}.

(** The order on resolved values is a total preorder. *)
Class KeyOrder {T V : Type} (C : Collaborators T V) : Prop := {
  key_le_total : ∀ a b : V, key_le a b = true ∨ key_le b a = true;
  key_le_trans : ∀ a b c : V,
    key_le a b = true → key_le b c = true → key_le a c = true
}.

(** ** JavaScript values and references *)

(** Object addresses, partitioned by allocation site: the object literal
    bound to [CLEAR_CACHE] when the module is loaded, the objects returned by
    the view builders, and every object allocated by other code. *)
Inductive addr :=
  | ClearCacheAddr
  | ViewAddr (n : nat)
  | ForeignAddr (n : nat).

Inductive jsval :=
  | JUndefined
  | JNull
  | JBool (b : bool)
  | JNumber (z : Z)
  | JString (s : string)
  | JObject (a : addr).

Global Instance addr_eq_dec : EqDecision addr.
Proof. solve_decision. Defined.
Global Instance jsval_eq_dec : EqDecision jsval.
Proof. solve_decision. Defined.

(** [var CLEAR_CACHE = {};] *)
Definition CLEAR_CACHE : jsval := JObject ClearCacheAddr.

(** [a === b]: primitives by value, objects by address. *)
Definition strict_equals (a b : jsval) : bool := bool_decide (a = b).

(** ToBoolean, as used by [cache || ...]. *)
Definition truthy (v : jsval) : bool :=
  match v with
  | JUndefined | JNull => false
  | JBool b => b
  | JNumber z => negb (z =? 0)%Z
  | JString s => negb (String.eqb s "")
  | JObject _ => true
  end.

(** The six wrapped methods:
    ['pop push shift splice unshift reverse'.split(' ')]. *)
Inductive method := pop | push | shift | splice | unshift | reverse_.

Global Instance method_eq_dec : EqDecision method.
Proof. solve_decision. Defined.

Definition wrapped_methods : list method :=
  [pop; push; shift; splice; unshift; reverse_].

Inductive error :=
  | RedefineTypeError (name : string)
      (* Object.defineProperty on an existing non-configurable property *)
  | SetterTypeError (message : string)
      (* thrown by the setter of a view *)
  | NotAFunctionTypeError (m : method).
      (* calling a property whose value is undefined *)

(** The three lodash functions passed as [op]. *)
Inductive lodash_op := groupBy_op | indexBy_op | sortBy_op.

Section Registry.
Context {T V : Type} `{C : !Collaborators T V}.

(** *** The un-wrapped Array primitives *)

(** A call of one of the six methods together with its arguments.
    [splice] distinguishes the number of arguments it receives; the
    integers are the arguments after ToInteger. *)
Inductive invocation :=
  | Pop
  | Push (items : list T)
  | Shift
  | Splice0
  | Splice1 (start : Z)
  | Splice (start deleteCount : Z) (items : list T)
  | Unshift (items : list T)
  | Reverse.

Definition method_of (c : invocation) : method :=
  match c with
  | Pop => pop
  | Push _ => push
  | Shift => shift
  | Splice0 | Splice1 _ | Splice _ _ _ => splice
  | Unshift _ => unshift
  | Reverse => reverse_
  end.

Inductive retval :=
  | RUndefined
  | RElement (x : T)
  | RLength (n : nat)
  | RRemoved (xs : list T)   (* a new array holding the removed elements *)
  | RReceiver.               (* the array the primitive was applied to *)

Definition splice_start (len : nat) (start : Z) : nat :=
  if (start <? 0)%Z then Z.to_nat (Z.max (Z.of_nat len + start) 0)
  else Z.to_nat (Z.min start (Z.of_nat len)).

Definition splice_count (len actualStart : nat) (deleteCount : Z) : nat :=
  Z.to_nat (Z.min (Z.max deleteCount 0)
                  (Z.of_nat len - Z.of_nat actualStart)).

Definition splice_at (l : list T) (from count : nat) (items : list T)
    : list T * retval :=
  (take from l ++ items ++ drop (from + count) l,
   RRemoved (take count (drop from l))).

(** [orig.apply(l, arguments)] for [orig = Array.prototype[method]]:
    the array after the call and the value returned. *)
Definition orig (c : invocation) (l : list T) : list T * retval :=
  match c with
  | Pop =>
      match last l with
      | None => ([], RUndefined)
      | Some x => (take (length l - 1) l, RElement x)
      end
  | Push items => (l ++ items, RLength (length (l ++ items)))
  | Shift =>
      match l with
      | [] => ([], RUndefined)
      | x :: l' => (l', RElement x)
      end
  | Splice0 => splice_at l 0 0 []
  | Splice1 start =>
      let s := splice_start (length l) start in
      splice_at l s (length l - s) []
  | Splice start deleteCount items =>
      let s := splice_start (length l) start in
      splice_at l s (splice_count (length l) s deleteCount) items
  | Unshift items => (items ++ l, RLength (length (items ++ l)))
  | Reverse => (reverse l, RReceiver)
  end.

(** *** The view builders *)

Inductive viewval :=
  | Grouped (m : gmap string (list T))
  | Indexed (m : gmap string T)
  | Ordered (l : list T).

(** Modelled from the spec: lodash's [_.groupBy] is not part of the
    verified file.  It maps each resolved key to the list of all records
    sharing that key, preserving relative order within each group. *)
Definition groupBy (l : list T) (f : T → V) : gmap string (list T) :=
  foldl (λ m r,
           <[propertyKey (f r) := default [] (m !! propertyKey (f r)) ++ [r]]> m)
        ∅ l.

(** Modelled from the spec: lodash's [_.indexBy] is not part of the
    verified file.  It maps each resolved key to a single record; the
    records are visited in order and each one is stored under its key. *)
Definition indexBy (l : list T) (f : T → V) : gmap string T :=
  foldl (λ m r, <[propertyKey (f r) := r]> m) ∅ l.

(** Each record is paired with its position; pairs are compared by
    resolved key, ties broken by position. *)
Definition compareAscending (f : T → V) (a b : nat * T) : Prop :=
  key_le (f a.2) (f b.2) = true ∧
  (key_le (f b.2) (f a.2) = true → a.1 ≤ b.1).

Global Instance compareAscending_dec f a b :
  Decision (compareAscending f a b).
Proof. unfold compareAscending. apply _. Defined.

(** Modelled from the spec: lodash's [_.sortBy] is not part of the verified
    file.  It returns a new sequence containing all records sorted
    ascending by resolved key, ties broken by original relative order. *)
Definition sortBy (l : list T) (f : T → V) : list T :=
  snd <$> merge_sort (compareAscending f) (imap (λ i r, (i, r)) l).

Definition run_op (op : lodash_op) (l : list T) (f : T → V) : viewval :=
  match op with
  | groupBy_op => Grouped (groupBy l f)
  | indexBy_op => Indexed (indexBy l f)
  | sortBy_op => Ordered (sortBy l f)
  end.

(** *** The state of a Registry instance *)

(** The variables captured by the getter and setter of one view. *)
Record view := View {
  op : lodash_op;
  from : T → V;
  cache : jsval
}.

Record state := State {
  elements : list T;              (* this[0 .. this.length-1] *)
  raw : list T;                   (* this.raw *)
  accessors : gmap string view;   (* properties defined by _setupIndices *)
  _indexNames : list string;      (* this._indexNames *)
  own_undefined : list method;    (* own properties assigned undefined *)
  heap : list viewval             (* objects returned by the builders *)
}.

Definition set_elements (l : list T) (st : state) : state :=
  State l (raw st) (accessors st) (_indexNames st) (own_undefined st) (heap st).
Definition set_raw (l : list T) (st : state) : state :=
  State (elements st) l (accessors st) (_indexNames st) (own_undefined st) (heap st).
Definition set_accessors (a : gmap string view) (st : state) : state :=
  State (elements st) (raw st) a (_indexNames st) (own_undefined st) (heap st).
Definition set_indexNames (n : list string) (st : state) : state :=
  State (elements st) (raw st) (accessors st) n (own_undefined st) (heap st).
Definition set_own_undefined (ms : list method) (st : state) : state :=
  State (elements st) (raw st) (accessors st) (_indexNames st) ms (heap st).
Definition set_heap (h : list viewval) (st : state) : state :=
  State (elements st) (raw st) (accessors st) (_indexNames st) (own_undefined st) h.

Definition set_cache (c : jsval) (v : view) : view := View (op v) (from v) c.

(** *** Exceptions and state *)

Inductive outcome (A : Type) :=
  | Return (a : A)
  | Throw (e : error).
Global Arguments Return {A} a.
Global Arguments Throw {A} e.

Definition M (A : Type) : Type := state → outcome A * state.

Definition ret {A} (a : A) : M A := λ st, (Return a, st).
Definition throw {A} (e : error) : M A := λ st, (Throw e, st).
Definition bind {A B} (m : M A) (k : A → M B) : M B := λ st,
  match m st with
  | (Return a, st') => k a st'
  | (Throw e, st') => (Throw e, st')
  end.
Definition modify (f : state → state) : M unit := λ st, (Return tt, f st).

Local Notation "'do' x <- m ; k" := (bind m (λ x, k))
  (at level 10, x name, m at level 100, k at level 200).
Local Notation "m ;; k" := (bind m (λ _, k))
  (at level 100, k at level 200, right associativity).

(** [Array.prototype.map] with a callback that may throw. *)
Fixpoint map_M {A B} (f : A → M B) (l : list A) : M (list B) :=
  match l with
  | [] => ret []
  | x :: l' => do y <- f x; do ys <- map_M f l'; ret (y :: ys)
  end.

(** [Array.prototype.forEach]. *)
Fixpoint forEach {A} (f : A → M unit) (l : list A) : M unit :=
  match l with
  | [] => ret tt
  | x :: l' => f x ;; forEach f l'
  end.

(** *** Accessor properties *)

Definition setter_message (to : string) : string :=
  to +:+ " can not be set, it is a computed index of values".

(** The [set] function of the property [to]. *)
Definition setter (to : string) (v : view) (val : jsval) : M unit :=
  if strict_equals val CLEAR_CACHE
  then modify (λ st,
         set_accessors (<[to := set_cache (JBool false) v]> (accessors st)) st)
  else throw (SetterTypeError (setter_message to)).

(** The [get] function of the property [to]:
    [return cache || (cache = op(self.raw, from));] *)
Definition getter (to : string) (v : view) : M jsval := λ st,
  if truthy (cache v) then (Return (cache v), st)
  else
    let obj := JObject (ViewAddr (length (heap st))) in
    (Return obj,
     set_accessors (<[to := set_cache obj v]> (accessors st))
       (set_heap (heap st ++ [run_op (op v) (raw st) (from v)]) st)).

(** [self[name] = val].  Assigning to a name without accessor creates or
    overwrites an own data property of the instance.  Data properties other
    than [raw], [_indexNames], the indexed elements and the shadowed methods
    are not among the modelled components, so this branch stands only for
    assignments to names that are none of these; the client events below
    assign to views only. *)
Definition put (name : string) (val : jsval) : M unit := λ st,
  match accessors st !! name with
  | Some v => setter name v val st
  | None => (Return tt, st)
  end.

(** [self[name]] *)
Definition get (name : string) : M jsval := λ st,
  match accessors st !! name with
  | Some v => getter name v st
  | None => (Return JUndefined, st)
  end.

(** [Object.defineProperty(self, to, { configurable: false, set, get })] *)
Definition defineProperty (to : string) (v : view) : M unit := λ st,
  match accessors st !! to with
  | Some _ => (Throw (RedefineTypeError to), st)
  | None => (Return tt, set_accessors (<[to := v]> (accessors st)) st)
  end.

(** *** Registry.prototype *)

(** The function passed to [props.map] in [_setupIndices]; the variable
    [cache] starts out undefined. *)
Definition _setupIndices_callback (inflect : string → string)
    (op : lodash_op) (prop : string) : M string :=
  let from := pathGetter prop in
  let to := inflect prop in
  defineProperty to (View op from JUndefined) ;;
  ret to.

Definition _setupIndices (props : option (list string))
    (inflect : string → string) (op : lodash_op) : M (option (list string)) :=
  match props with
  | None | Some [] => ret None
  | Some ps =>
      do names <- map_M (_setupIndices_callback inflect op) ps;
      ret (Some names)
  end.

Definition _clearIndices : M unit := λ st,
  forEach (λ name, put name CLEAR_CACHE) (_indexNames st) st.

(** [Registry.prototype._clearIndices] is reachable from outside the module
    and takes the object it works on from [this], so code outside can apply
    it to an object of its own: [Registry.prototype._clearIndices.call(o)].
    For an object [o] without accessor properties, whose [_indexNames] is the
    array [names] and whose other data properties are [props], every
    assignment [self[name] = CLEAR_CACHE] creates or overwrites a data
    property; the result is the data properties of [o] after the call. *)
Definition _clearIndices_on (names : list string) (props : gmap string jsval)
    : gmap string jsval :=
  foldl (λ props name, <[name := CLEAR_CACHE]> props) props names.

(** [Registry.prototype[method]] *)
Definition wrapped (c : invocation) : M retval :=
  modify (λ st, set_elements (orig c (elements st)).1 st) ;;
  _clearIndices ;;
  λ st, (Return (orig c (raw st)).2, set_raw (orig c (raw st)).1 st).

(** [this[method](args...)]: an own property shadows the prototype. *)
Definition invoke (c : invocation) : M retval := λ st,
  if decide (method_of c ∈ own_undefined st)
  then (Throw (NotAFunctionTypeError (method_of c)), st)
  else wrapped c st.

(** *** The constructor *)

(** The [config] argument; an absent field is [None] (or [false]), and an
    absent [config] is the record with every field absent. *)
Record config := Config {
  group : option (list string);
  index : option (list string);
  order : option (list string);
  initialSet : option (list T);
  immutable : bool
}.

(** lodash's [_.union]: the unique values of the arrays among its
    arguments, in order of first occurrence. *)
Fixpoint uniq (seen l : list string) : list string :=
  match l with
  | [] => []
  | x :: l' =>
      if decide (x ∈ seen) then uniq seen l' else x :: uniq (x :: seen) l'
  end.
Definition union (args : list (option (list string))) : list string :=
  uniq [] (concat (default [] <$> args)).

Definition Registry (cfg : config) : M unit :=
  modify (set_raw []) ;;
  do g <- _setupIndices (group cfg) inflectIndex groupBy_op;
  do i <- _setupIndices (index cfg) inflectIndex indexBy_op;
  do o <- _setupIndices (order cfg) inflectOrder sortBy_op;
  modify (set_indexNames (union [g; i; o])) ;;
  match initialSet cfg with
  | Some xs => invoke (Push xs) ;; ret tt
  | None => ret tt
  end ;;
  if immutable cfg then modify (set_own_undefined [push; splice])
  else ret tt.

(** The object before the constructor body runs. *)
Definition fresh : state := State [] [] ∅ [] [] [].

(** [new Registry(cfg)]: the instance, unless the constructor throws. *)
Definition new_Registry (cfg : config) : outcome state :=
  match Registry cfg fresh with
  | (Return _, st) => Return st
  | (Throw e, _) => Throw e
  end.

(** [Registry.prototype.toJSON] *)
Definition toJSON (st : state) : list T := raw st.

(** *** Clients *)

(** What code outside the module does with an instance: call a method, read
    a view, or assign a value to a view.  The value may be any value,
    [CLEAR_CACHE] included: the module does not export it, but
    [_clearIndices_on] hands it out. *)
Inductive event :=
  | Call (c : invocation)
  | Read (name : string)
  | Assign (name : string) (val : jsval).

Definition declared (name : string) (st : state) : Prop :=
  is_Some (accessors st !! name).

Definition step (e : event) (st : state) : state :=
  match e with
  | Call c => (invoke c st).2
  | Read name => (get name st).2
  | Assign name val => (put name val st).2
  end.

Definition client_event (e : event) (st : state) : Prop :=
  match e with
  | Call _ => True
  | Read name => declared name st
  | Assign name val => declared name st
  end.

Inductive reachable : state → Prop :=
  | reachable_new cfg st :
      new_Registry cfg = Return st → reachable st
  | reachable_step e st :
      reachable st → client_event e st → reachable (step e st).

Definition absent (c : jsval) : Prop := truthy c = false.

(** *** Specification-level definitions *)

(** What [_clearIndices] does to the accessor properties. *)
Definition invalidate (names : list string) (a : gmap string view)
    : gmap string view :=
  foldl (λ a name, alter (set_cache (JBool false)) name a) a names.

(** The value returned by a successful [_setupIndices]: [undefined] for
    empty [props], the public names otherwise. *)
Definition returned_names (ps : list string) (names : list string)
    : option (list string) :=
  match ps with [] => None | _ => Some names end.

(** What a successful [_setupIndices] does to the accessor properties. *)
Definition declare (inflect : string → string) (o : lodash_op)
    (ps : list string) (a : gmap string view) : gmap string view :=
  foldl (λ a p, <[inflect p := View o (pathGetter p) JUndefined]> a) a ps.

Definition declare_all (cfg : config) : gmap string view :=
  declare inflectOrder sortBy_op (default [] (order cfg))
    (declare inflectIndex indexBy_op (default [] (index cfg))
       (declare inflectIndex groupBy_op (default [] (group cfg)) ∅)).

(** A cache is either absent or holds the address of the object its builder
    returns on the current [raw]. *)
Definition cache_ok (st : state) (v : view) : Prop :=
  absent (cache v) ∨
  ∃ a, cache v = JObject (ViewAddr a) ∧
       heap st !! a = Some (run_op (op v) (raw st) (from v)).

Definition inflect_of (o : lodash_op) : string → string :=
  match o with
  | sortBy_op => inflectOrder
  | _ => inflectIndex
  end.

Record invariant (st : state) : Prop := {
  inv_mirror : elements st = raw st;
  inv_names : ∀ name, name ∈ _indexNames st ↔ declared name st;
  inv_cache : ∀ name v, accessors st !! name = Some v → cache_ok st v;
  inv_origin : ∀ name v, accessors st !! name = Some v →
    ∃ prop, name = inflect_of (op v) prop ∧ from v = pathGetter prop
}.

(** Two resolved keys tie when each is below the other. *)
Definition tie (f : T → V) (k : V) (r : T) : bool :=
  key_le (f r) k && key_le k (f r).

(** The public names derived from a configuration, in declaration order. *)
Definition declared_names (cfg : config) : list string :=
  (inflectIndex <$> default [] (group cfg)) ++
  (inflectIndex <$> default [] (index cfg)) ++
  (inflectOrder <$> default [] (order cfg)).

(** The instance returned by a constructor call that does not throw. *)
Definition constructed (cfg : config) : state :=
  State (default [] (initialSet cfg)) (default [] (initialSet cfg))
        (match initialSet cfg with
         | Some _ => invalidate (declared_names cfg) (declare_all cfg)
         | None => declare_all cfg
         end)
        (declared_names cfg)
        (if immutable cfg then [push; splice] else [])
        [].

(** *** Sequences of client events *)

(** The state after a sequence of events, each run to completion or to its
    [throw]. *)
Definition run (es : list event) (st : state) : state :=
  foldl (λ st e, step e st) st es.

Definition is_Read (e : event) : bool :=
  match e with
  | Read _ => true
  | _ => false
  end.

(** The number of reads among a sequence of events. *)
Definition count_reads (es : list event) : nat :=
  length (filter (λ e, is_Read e) es).

(** A sequence of client events, each admissible in the state it runs in. *)
Fixpoint client_events (es : list event) (st : state) : Prop :=
  match es with
  | [] => True
  | e :: es' => client_event e st ∧ client_events es' (step e st)
  end.

(** Events that call no wrapped method and do not write [CLEAR_CACHE]. *)
Definition non_mutating (e : event) : Prop :=
  match e with
  | Call _ => False
  | Read _ => True
  | Assign _ val => val ≠ CLEAR_CACHE
  end.

(** The value of an empty view of each kind. *)
Definition empty_view (o : lodash_op) : viewval :=
  match o with
  | groupBy_op => Grouped ∅
  | indexBy_op => Indexed ∅
  | sortBy_op => Ordered []
  end.

End Registry.

Global Arguments invocation : clear implicits.
Global Arguments retval : clear implicits.
Global Arguments viewval : clear implicits.
Global Arguments view : clear implicits.
Global Arguments state : clear implicits.
Global Arguments config : clear implicits.
Global Arguments event : clear implicits.

(** ** A concrete instantiation

    Documents with two integer fields, used to run the model on concrete
    inputs.  A path that names no field resolves to [undefined], which sorts
    after every number. *)
Module Sample.

Record doc := Doc { doc_id : Z; doc_n : Z }.

Definition upFirst (s : string) : string :=
  match s with
  | EmptyString => EmptyString
  | String c s' =>
      let k := Ascii.nat_of_ascii c in
      String (if (97 <=? k)%nat && (k <=? 122)%nat
              then Ascii.ascii_of_nat (k - 32) else c) s'
  end.

Definition resolve (prop : string) (d : doc) : option Z :=
  if String.eqb prop "id" then Some (doc_id d)
  else if String.eqb prop "n" then Some (doc_n d)
  else None.

Definition toKey (v : option Z) : string :=
  match v with
  | Some z => pretty z
  | None => "undefined"
  end.

Definition ascending (a b : option Z) : bool :=
  match a, b with
  | Some x, Some y => (x <=? y)%Z
  | _, None => true
  | None, Some _ => false
  end.

Global Instance collaborators : Collaborators doc (option Z) := {|
  pathGetter := resolve;
  inflectIndex := λ p, "by" +:+ upFirst p;
  inflectOrder := λ p, "in" +:+ upFirst p +:+ "Order";
  propertyKey := toKey;
  key_le := ascending
|}.

(** [new Registry(cfg)], for configurations known to construct. *)
Definition construct (cfg : config doc) : state doc (option Z) :=
  match new_Registry cfg with
  | Return st => st
  | Throw _ => fresh
  end.

(** The value stored at the address returned by a read. *)
Definition deref (r : outcome jsval * state doc (option Z))
    : option (viewval doc) :=
  match r.1 with
  | Return (JObject (ViewAddr a)) => heap r.2 !! a
  | _ => None
  end.

Definition d1 : doc := Doc 1 30.
Definition d2 : doc := Doc 2 10.
Definition d3 : doc := Doc 1 20.

Definition cfg_all : config doc :=
  Config (Some ["n"]) (Some ["id"]) (Some ["n"; "id"]) (Some [d1; d2]) false.

Definition cfg_frozen : config doc :=
  Config None (Some ["id"]) None (Some [d1; d2]) true.

Definition cfg_clash : config doc :=
  Config (Some ["id"]) (Some ["id"]) None (Some [d1; d2]) false.

Definition cfg_group : config doc :=
  Config (Some ["id"]) None None (Some [d1; d2; d3]) false.

(** The closure state of two views of [cfg_all] once the initial set has
    been pushed. *)
Definition v_byId : view doc (option Z) :=
  View indexBy_op (resolve "id") (JBool false).
Definition v_inNOrder : view doc (option Z) :=
  View sortBy_op (resolve "n") (JBool false).

Definition st_all : state doc (option Z) := construct cfg_all.
Definition st_pushed : state doc (option Z) := step (Call (Push [d3])) st_all.
Definition st_frozen : state doc (option Z) := construct cfg_frozen.
Definition st_group : state doc (option Z) := construct cfg_group.

Definition cfg_empty : config doc :=
  Config None (Some ["id"]) None None false.
Definition st_empty : state doc (option Z) := construct cfg_empty.
Definition st_read : state doc (option Z) := step (Read "byId") st_pushed.
Definition st_popped : state doc (option Z) := step (Call Pop) st_read.

(** The closure state of views before and after the first invalidation. *)
Definition v_byId_new : view doc (option Z) :=
  View indexBy_op (resolve "id") JUndefined.
Definition v_byId_group : view doc (option Z) :=
  View groupBy_op (resolve "id") (JBool false).

End Sample.

(** * Verification *)

Section Proofs.
Context {T V : Type} `{C : !Collaborators T V}.
Implicit Types (st : state T V) (c : invocation T) (v : view T V).
Implicit Types (name : string) (names : list string).

(** ** The state record *)

Lemma set_accessors_id st : set_accessors (accessors st) st = st.
Proof. by destruct st. Qed.

(** ** Invalidation *)

Lemma put_CLEAR_CACHE name st :
  put name CLEAR_CACHE st =
  (Return tt,
   set_accessors (alter (set_cache (JBool false)) name (accessors st)) st).
Proof.
  unfold put. destruct (accessors st !! name) as [v|] eqn:Hv.
  - unfold setter, strict_equals. rewrite bool_decide_eq_true_2 by done.
    unfold modify. do 2 f_equal. apply map_eq. intros k.
    rewrite lookup_alter, lookup_insert.
    repeat case_decide; simplify_eq; by rewrite ?Hv.
  - do 2 f_equal. rewrite <- (set_accessors_id st) at 1. f_equal.
    apply map_eq. intros k. rewrite lookup_alter.
    case_decide; simplify_eq; by rewrite ?Hv.
Qed.

Lemma forEach_put_CLEAR_CACHE names st :
  forEach (λ name, put name CLEAR_CACHE) names st =
  (Return tt, set_accessors (invalidate names (accessors st)) st).
Proof.
  revert st. induction names as [|name names IH]; intros st; simpl.
  - unfold ret. by rewrite set_accessors_id.
  - unfold bind. rewrite put_CLEAR_CACHE, IH. by destruct st.
Qed.

Lemma _clearIndices_spec st :
  _clearIndices st =
  (Return tt, set_accessors (invalidate (_indexNames st) (accessors st)) st).
Proof. apply forEach_put_CLEAR_CACHE. Qed.

Lemma lookup_invalidate names (a : gmap string (view T V)) name :
  invalidate names a !! name =
  if decide (name ∈ names) then set_cache (JBool false) <$> a !! name
  else a !! name.
Proof.
  revert a. induction names as [|n names IH]; intros a.
  - rewrite decide_False by apply not_elem_of_nil. done.
  - unfold invalidate in *. simpl. rewrite IH, lookup_alter.
    destruct (decide (n = name)) as [->|Hne].
    + rewrite (decide_True (P := name ∈ name :: names)) by left.
      case_decide; [|done]. by destruct (a !! name).
    + destruct (decide (name ∈ names)) as [Hin|Hnin].
      * by rewrite decide_True by (by right).
      * rewrite decide_False; [done|]. rewrite elem_of_cons. by intros [|].
Qed.

(** ** The wrapped methods *)

Lemma wrapped_spec c st :
  wrapped c st =
  (Return (orig c (raw st)).2,
   State (orig c (elements st)).1 (orig c (raw st)).1
         (invalidate (_indexNames st) (accessors st))
         (_indexNames st) (own_undefined st) (heap st)).
Proof.
  unfold wrapped, bind, modify. by rewrite _clearIndices_spec.
Qed.

(** ** Declaring views *)

Lemma lookup_declare inflect o ps (a : gmap string (view T V)) name :
  declare inflect o ps a !! name =
  match last (filter (λ p, inflect p = name) ps) with
  | Some p => Some (View o (pathGetter p) JUndefined)
  | None => a !! name
  end.
Proof.
  revert a. induction ps as [|p ps IH] using rev_ind; intros a; [done|].
  unfold declare in *. rewrite foldl_snoc, filter_app, lookup_insert.
  rewrite filter_cons, filter_nil. case_decide as Hp.
  - by rewrite last_snoc.
  - rewrite app_nil_r. apply IH.
Qed.

Lemma declared_declare inflect o ps (a : gmap string (view T V)) name :
  is_Some (declare inflect o ps a !! name) ↔
  is_Some (a !! name) ∨ name ∈ inflect <$> ps.
Proof.
  rewrite lookup_declare.
  destruct (last (filter _ ps)) as [p|] eqn:Hl.
  - split; [intros _|by eauto]. right.
    apply last_Some_elem_of, list_elem_of_filter in Hl as [<- Hin].
    by apply list_elem_of_fmap_2.
  - apply last_None in Hl. split; [by left|]. intros [?|Hin]; [done|].
    apply list_elem_of_fmap in Hin as (p & -> & Hin).
    assert (p ∈ filter (λ p0, inflect p0 = inflect p) ps) as Hf
      by by apply list_elem_of_filter.
    rewrite Hl in Hf. by apply elem_of_nil in Hf.
Qed.

Lemma map_callback_ok inflect o ps st :
  NoDup (inflect <$> ps) →
  (∀ p, p ∈ ps → accessors st !! inflect p = None) →
  map_M (_setupIndices_callback inflect o) ps st =
  (Return (inflect <$> ps),
   set_accessors (declare inflect o ps (accessors st)) st).
Proof.
  revert st. induction ps as [|p ps IH]; intros st Hnd Hfresh.
  - simpl. unfold ret. by rewrite set_accessors_id.
  - rewrite fmap_cons in Hnd. apply NoDup_cons in Hnd as [Hp Hnd].
    simpl. unfold bind at 1. unfold _setupIndices_callback at 1.
    unfold bind at 1, defineProperty.
    rewrite (Hfresh p) by left. unfold ret at 1. unfold bind at 1.
    rewrite IH; [by destruct st|done|].
    intros p' Hp'. simpl. rewrite lookup_insert_ne.
    + apply Hfresh. by right.
    + intros Heq. apply Hp. rewrite Heq. by apply list_elem_of_fmap_2.
Qed.

Lemma map_callback_throw inflect o ps st :
  ¬ (NoDup (inflect <$> ps) ∧
     ∀ p, p ∈ ps → accessors st !! inflect p = None) →
  ∃ name st',
    map_M (_setupIndices_callback inflect o) ps st =
    (Throw (RedefineTypeError name), st').
Proof.
  revert st. induction ps as [|p ps IH]; intros st Hno.
  - destruct Hno. split; [constructor|].
    intros p Hp. by apply elem_of_nil in Hp.
  - simpl. unfold bind at 1. unfold _setupIndices_callback at 1.
    unfold bind at 1, defineProperty.
    destruct (accessors st !! inflect p) as [v|] eqn:Hp; [by eauto|].
    unfold ret at 1. unfold bind at 1.
    set (st1 := set_accessors _ st).
    destruct (IH st1) as (name & st' & ->); [|by eauto].
    intros [Hnd Hfresh]. apply Hno. split.
    + rewrite fmap_cons. apply NoDup_cons. split; [|done].
      intros Hin. apply list_elem_of_fmap in Hin as (p' & Heq & Hin).
      specialize (Hfresh p' Hin). subst st1. simpl in Hfresh.
      rewrite <- Heq, lookup_insert_eq in Hfresh. done.
    + intros p' Hin. apply elem_of_cons in Hin as [->|Hin]; [done|].
      specialize (Hfresh p' Hin). subst st1. simpl in Hfresh.
      destruct (decide (inflect p = inflect p')) as [Heq|Hne].
      * rewrite Heq, lookup_insert_eq in Hfresh. done.
      * by rewrite lookup_insert_ne in Hfresh.
Qed.

Lemma _setupIndices_ok props inflect o st :
  NoDup (inflect <$> default [] props) →
  (∀ p, p ∈ default [] props → accessors st !! inflect p = None) →
  _setupIndices props inflect o st =
  (Return (returned_names (default [] props) (inflect <$> default [] props)),
   set_accessors (declare inflect o (default [] props) (accessors st)) st).
Proof.
  intros Hnd Hfresh. destruct props as [[|p ps]|].
  1,3: simpl; unfold ret; by rewrite set_accessors_id.
  unfold _setupIndices, default in *. unfold bind at 1.
  by rewrite (map_callback_ok inflect o (p :: ps) st Hnd Hfresh).
Qed.

Lemma _setupIndices_throw props inflect o st :
  ¬ (NoDup (inflect <$> default [] props) ∧
     ∀ p, p ∈ default [] props → accessors st !! inflect p = None) →
  ∃ name st',
    _setupIndices props inflect o st = (Throw (RedefineTypeError name), st').
Proof.
  intros Hno. destruct props as [[|p ps]|].
  1,3: destruct Hno; split; [constructor|];
       intros p Hp; by apply elem_of_nil in Hp.
  unfold _setupIndices, default in *. unfold bind at 1.
  destruct (map_callback_throw inflect o (p :: ps) st Hno) as (name & st' & ->).
  by eauto.
Qed.

(** ** The constructor *)

Lemma uniq_NoDup seen l :
  NoDup l → (∀ x, x ∈ l → x ∉ seen) → uniq seen l = l.
Proof.
  revert seen. induction l as [|x l IH]; intros seen Hnd Hseen; [done|].
  apply NoDup_cons in Hnd as [Hx Hnd]. simpl.
  rewrite decide_False by (apply Hseen; left). f_equal.
  apply IH; [done|]. intros y Hy Hin.
  apply elem_of_cons in Hin as [->|Hin]; [done|].
  apply (Hseen y); [by right|done].
Qed.

Lemma default_returned_names (f : string → string) ps :
  default [] (returned_names ps (f <$> ps)) = f <$> ps.
Proof. by destruct ps. Qed.

Lemma union_declared (cfg : config T) :
  NoDup (declared_names cfg) →
  union [returned_names (default [] (group cfg))
           (inflectIndex <$> default [] (group cfg));
         returned_names (default [] (index cfg))
           (inflectIndex <$> default [] (index cfg));
         returned_names (default [] (order cfg))
           (inflectOrder <$> default [] (order cfg))] =
  declared_names cfg.
Proof.
  intros Hnd. unfold union. rewrite !fmap_cons, fmap_nil.
  rewrite !default_returned_names. simpl. rewrite app_nil_r.
  apply uniq_NoDup; [done|]. intros x _. apply not_elem_of_nil.
Qed.

Lemma setup_all (cfg : config T) :
  NoDup (declared_names cfg) →
  let names_g := inflectIndex <$> default [] (group cfg) in
  let names_i := inflectIndex <$> default [] (index cfg) in
  let names_o := inflectOrder <$> default [] (order cfg) in
  ∀ st, accessors st = ∅ →
  ∃ st1 st2,
    _setupIndices (group cfg) inflectIndex groupBy_op st =
      (Return (returned_names (default [] (group cfg)) names_g), st1) ∧
    _setupIndices (index cfg) inflectIndex indexBy_op st1 =
      (Return (returned_names (default [] (index cfg)) names_i), st2) ∧
    _setupIndices (order cfg) inflectOrder sortBy_op st2 =
      (Return (returned_names (default [] (order cfg)) names_o),
       set_accessors (declare_all cfg) st).
Proof.
  intros Hnd names_g names_i names_o st Hempty.
  unfold declared_names in Hnd.
  apply NoDup_app in Hnd as (Hg & Hgio & Hnd).
  apply NoDup_app in Hnd as (Hi & Hio & Ho).
  eexists _, _. split; [|split].
  - apply _setupIndices_ok; [done|]. intros p _.
    by rewrite Hempty, lookup_empty.
  - apply _setupIndices_ok; [done|]. intros p Hp. simpl.
    apply eq_None_not_Some. rewrite declared_declare, Hempty, lookup_empty.
    intros [[? ?]|Hin]; [done|].
    apply (Hgio _ Hin), elem_of_app. left. by apply list_elem_of_fmap_2.
  - rewrite _setupIndices_ok; [| done |].
    + unfold declare_all. rewrite Hempty. by destruct st.
    + intros p Hp. simpl. apply eq_None_not_Some.
      rewrite !declared_declare, Hempty, lookup_empty.
      intros [[[? ?]|Hin]|Hin]; [done| |].
      * apply (Hgio _ Hin), elem_of_app. right. by apply list_elem_of_fmap_2.
      * apply (Hio _ Hin). by apply list_elem_of_fmap_2.
Qed.

Lemma Registry_constructs (cfg : config T) :
  NoDup (declared_names cfg) →
  new_Registry cfg = Return (constructed (V := V) cfg).
Proof.
  intros Hnd. unfold new_Registry, Registry.
  destruct (setup_all cfg Hnd (set_raw [] fresh) eq_refl)
    as (st1 & st2 & Hg & Hi & Ho).
  unfold bind at 1. unfold modify at 1.
  unfold bind at 1. rewrite Hg.
  unfold bind at 1. rewrite Hi.
  unfold bind at 1. rewrite Ho.
  unfold bind at 1. unfold modify at 1. rewrite union_declared by done.
  unfold bind at 1. unfold constructed.
  destruct (initialSet cfg) as [xs|]; simpl.
  - unfold bind at 1, invoke. simpl.
    rewrite wrapped_spec. simpl. unfold ret at 1.
    by destruct (immutable cfg).
  - unfold ret at 1. by destruct (immutable cfg).
Qed.

Lemma fresh_names_NoDup (inflect : string → string) ps
    (a : gmap string (view T V)) (l : list string) :
  (∀ name, is_Some (a !! name) ↔ name ∈ l) →
  NoDup l →
  NoDup (inflect <$> ps) ∧ (∀ p, p ∈ ps → a !! inflect p = None) →
  NoDup (l ++ (inflect <$> ps)).
Proof.
  intros Hdom Hl [Hnd Hfresh]. apply NoDup_app. split; [done|]. split; [|done].
  intros x Hx Hin. apply list_elem_of_fmap in Hin as (p & -> & Hp).
  apply Hdom in Hx as [v Hv]. by rewrite (Hfresh p Hp) in Hv.
Qed.

Lemma Registry_clash (cfg : config T) :
  ¬ NoDup (declared_names cfg) →
  ∃ name, new_Registry (V := V) cfg = Throw (RedefineTypeError name).
Proof.
  intros Hdup. unfold new_Registry, Registry, declared_names in *.
  set (ps_g := default [] (group cfg)) in *.
  set (ps_i := default [] (index cfg)) in *.
  set (ps_o := default [] (order cfg)) in *.
  unfold bind at 1. unfold modify at 1. unfold bind at 1.
  destruct (decide (NoDup (inflectIndex <$> ps_g))) as [Hg|Hg].
  2: { destruct (_setupIndices_throw (group cfg) inflectIndex groupBy_op
                   (set_raw [] fresh)) as (name & st' & ->); [|by eauto].
       by intros [? _]. }
  rewrite _setupIndices_ok; [|done|]; last first.
  { intros p _. apply lookup_empty. }
  fold ps_g. set (st1 := set_accessors _ _). unfold bind at 1.
  assert (∀ name, is_Some (accessors st1 !! name) ↔
                  name ∈ inflectIndex <$> ps_g) as Hdom1.
  { intros name. subst st1. simpl. rewrite declared_declare, lookup_empty.
    split; [by intros [[? ?]|?]|by right]. }
  destruct (decide (NoDup ((inflectIndex <$> ps_g) ++ (inflectIndex <$> ps_i))))
    as [Hgi|Hgi].
  2: { destruct (_setupIndices_throw (index cfg) inflectIndex indexBy_op st1)
         as (name & st' & ->); [|by eauto].
       intros Hok. apply Hgi. by eapply fresh_names_NoDup. }
  apply NoDup_app in Hgi as (_ & Hdisj & Hi).
  rewrite _setupIndices_ok; [|done|]; last first.
  { intros p Hp. apply eq_None_not_Some. intros Hin. apply Hdom1 in Hin.
    apply (Hdisj _ Hin). by apply list_elem_of_fmap_2. }
  fold ps_i. set (st2 := set_accessors _ _). unfold bind at 1.
  destruct (_setupIndices_throw (order cfg) inflectOrder sortBy_op st2)
    as (name & st' & ->); [|by eauto].
  intros Hok. apply Hdup. rewrite app_assoc.
  eapply fresh_names_NoDup; [|by apply NoDup_app|exact Hok].
  intros name. specialize (Hdom1 name). subst st2 st1. simpl in *.
  by rewrite declared_declare, elem_of_app, Hdom1.
Qed.

(** ** Reads and writes of a view *)

Lemma get_cached name v st :
  accessors st !! name = Some v → truthy (cache v) = true →
  get name st = (Return (cache v), st).
Proof. intros Hv Hc. unfold get, getter. by rewrite Hv, Hc. Qed.

Lemma get_absent name v st :
  accessors st !! name = Some v → absent (cache v) →
  get name st =
  (Return (JObject (ViewAddr (length (heap st)))),
   State (elements st) (raw st)
         (<[name := set_cache (JObject (ViewAddr (length (heap st)))) v]>
            (accessors st))
         (_indexNames st) (own_undefined st)
         (heap st ++ [run_op (op v) (raw st) (from v)])).
Proof. intros Hv Hc. unfold get, getter. by rewrite Hv, Hc. Qed.

Lemma put_rejected name v val st :
  accessors st !! name = Some v → val ≠ CLEAR_CACHE →
  put name val st = (Throw (SetterTypeError (setter_message name)), st).
Proof.
  intros Hv Hval. unfold put, setter, strict_equals.
  by rewrite Hv, bool_decide_eq_false_2.
Qed.

Lemma invoke_callable c st :
  method_of c ∉ own_undefined st → invoke c st = wrapped c st.
Proof. intros Hm. unfold invoke. by rewrite decide_False. Qed.

Lemma invoke_undefined c st :
  method_of c ∈ own_undefined st →
  invoke c st = (Throw (NotAFunctionTypeError (method_of c)), st).
Proof. intros Hm. unfold invoke. by rewrite decide_True. Qed.

(** ** The invariant *)

Lemma lookup_declare_all (cfg : config T) name v :
  declare_all cfg !! name = Some v →
  cache v = JUndefined ∧
  ∃ prop, name = inflect_of (op v) prop ∧ from v = pathGetter prop.
Proof.
  unfold declare_all. rewrite !lookup_declare, lookup_empty.
  repeat match goal with
  | |- context [last (filter ?P ?l)] =>
      let Hl := fresh "Hl" in
      destruct (last (filter P l)) as [?|] eqn:Hl;
      [apply last_Some_elem_of, list_elem_of_filter in Hl as [<- _]|]
  end; intros; simplify_eq; simpl; eauto.
Qed.

Lemma declared_declare_all (cfg : config T) name :
  is_Some (declare_all (V := V) cfg !! name) ↔ name ∈ declared_names cfg.
Proof.
  unfold declare_all, declared_names.
  rewrite !declared_declare, lookup_empty, !elem_of_app.
  split; [intros [[[[? ?]|?]|?]|?]|intros [?|[?|?]]]; eauto.
  done.
Qed.

Lemma is_Some_invalidate names (a : gmap string (view T V)) name :
  is_Some (invalidate names a !! name) ↔ is_Some (a !! name).
Proof.
  rewrite lookup_invalidate. case_decide; [|done]. by rewrite fmap_is_Some.
Qed.

Lemma cache_ok_absent st v : absent (cache v) → cache_ok st v.
Proof. by left. Qed.

Lemma invariant_constructed (cfg : config T) :
  invariant (constructed (V := V) cfg).
Proof.
  unfold constructed. split; simpl.
  - done.
  - intros name. unfold declared. simpl.
    destruct (initialSet cfg);
      by rewrite ?is_Some_invalidate, declared_declare_all.
  - intros name v Hv. apply cache_ok_absent. destruct (initialSet cfg).
    + rewrite lookup_invalidate in Hv. case_decide.
      * apply fmap_Some in Hv as (v0 & _ & ->). done.
      * apply lookup_declare_all in Hv as [Hc _]. by rewrite Hc.
    + apply lookup_declare_all in Hv as [Hc _]. by rewrite Hc.
  - intros name v Hv. destruct (initialSet cfg).
    + rewrite lookup_invalidate in Hv. case_decide.
      * apply fmap_Some in Hv as (v0 & Hv & ->).
        by apply lookup_declare_all in Hv as [_ ?].
      * by apply lookup_declare_all in Hv as [_ ?].
    + by apply lookup_declare_all in Hv as [_ ?].
Qed.

Lemma new_Registry_cases (cfg : config T) :
  (NoDup (declared_names cfg) ∧
   new_Registry cfg = Return (constructed (V := V) cfg)) ∨
  (¬ NoDup (declared_names cfg) ∧
   ∃ name, new_Registry (V := V) cfg = Throw (RedefineTypeError name)).
Proof.
  destruct (decide (NoDup (declared_names cfg))) as [Hnd|Hdup].
  - left. split; [done|]. by apply Registry_constructs.
  - right. split; [done|]. by apply Registry_clash.
Qed.

Lemma invariant_new (cfg : config T) st :
  new_Registry cfg = Return st → invariant st.
Proof.
  intros Hnew. destruct (new_Registry_cases cfg) as [[_ H]|[_ [name H]]];
    rewrite H in Hnew; simplify_eq.
  apply invariant_constructed.
Qed.

Lemma invariant_wrapped c st :
  invariant st → invariant (wrapped c st).2.
Proof.
  intros [Hm Hn Hc Ho]. rewrite wrapped_spec. split; simpl.
  - by rewrite Hm.
  - intros name. unfold declared. simpl. rewrite is_Some_invalidate. apply Hn.
  - intros name v Hv. apply cache_ok_absent.
    rewrite lookup_invalidate in Hv. case_decide as Hin.
    + apply fmap_Some in Hv as (v0 & _ & ->). done.
    + destruct Hin. apply Hn. by exists v.
  - intros name v Hv. rewrite lookup_invalidate in Hv. case_decide.
    + apply fmap_Some in Hv as (v0 & Hv & ->). exact (Ho name v0 Hv).
    + by apply (Ho name).
Qed.

Lemma invariant_get name st :
  invariant st → invariant (get name st).2.
Proof.
  intros [Hm Hn Hc Ho]. destruct (accessors st !! name) as [v|] eqn:Hv.
  2: { unfold get. by rewrite Hv. }
  destruct (truthy (cache v)) eqn:Ht.
  { by rewrite (get_cached name v). }
  rewrite (get_absent name v) by done. split; simpl.
  - done.
  - intros name'. unfold declared. simpl. rewrite Hn. unfold declared.
    rewrite lookup_insert. case_decide; [subst|done].
    rewrite Hv. split; eauto.
  - intros name' v'. rewrite lookup_insert. case_decide.
    + intros [= <-]. right. eexists. split; [done|]. simpl.
      by rewrite lookup_app_r, Nat.sub_diag.
    + intros Hv'. destruct (Hc name' v' Hv') as [?|(a & ? & Ha)]; [by left|].
      right. exists a. split; [done|]. simpl. by apply lookup_app_l_Some.
  - intros name' v'. rewrite lookup_insert. case_decide.
    + intros [= <-]. subst. exact (Ho name' v Hv).
    + apply Ho.
Qed.

Lemma invariant_invalidate names st :
  invariant st →
  invariant (set_accessors (invalidate names (accessors st)) st).
Proof.
  intros [Hm Hn Hc Ho]. split; simpl.
  - done.
  - intros name. unfold declared. simpl. rewrite is_Some_invalidate. apply Hn.
  - intros name v Hv. rewrite lookup_invalidate in Hv. case_decide.
    + apply fmap_Some in Hv as (v0 & _ & ->). by left.
    + destruct (Hc name v Hv) as [?|(a & ? & ?)]; [by left|].
      right. by exists a.
  - intros name v Hv. rewrite lookup_invalidate in Hv. case_decide.
    + apply fmap_Some in Hv as (v0 & Hv & ->). exact (Ho name v0 Hv).
    + by apply (Ho name).
Qed.

Lemma invariant_step e st :
  invariant st → client_event e st → invariant (step e st).
Proof.
  intros Hinv He. destruct e as [c|name|name val]; simpl.
  - destruct (decide (method_of c ∈ own_undefined st)).
    + by rewrite invoke_undefined.
    + rewrite invoke_callable by done. by apply invariant_wrapped.
  - by apply invariant_get.
  - destruct He as [v Hv]. destruct (decide (val = CLEAR_CACHE)) as [->|Hval].
    + rewrite put_CLEAR_CACHE. simpl.
      by apply (invariant_invalidate [name]).
    + by rewrite (put_rejected name v).
Qed.

Lemma reachable_invariant st : reachable st → invariant st.
Proof.
  induction 1 as [cfg st Hnew|e st _ IH He].
  - by eapply invariant_new.
  - by apply invariant_step.
Qed.

(** ** The view builders *)

Lemma lookup_indexBy (l : list T) (f : T → V) (k : string) :
  indexBy l f !! k = last (filter (λ r, propertyKey (f r) = k) l).
Proof.
  induction l as [|r l IH] using rev_ind; [done|].
  unfold indexBy in *. rewrite foldl_snoc, filter_app, lookup_insert.
  rewrite filter_cons, filter_nil. case_decide as Hk.
  - by rewrite last_snoc.
  - by rewrite app_nil_r.
Qed.

Lemma lookup_groupBy (l : list T) (f : T → V) (k : string) :
  groupBy l f !! k =
  match filter (λ r, propertyKey (f r) = k) l with
  | [] => None
  | g => Some g
  end.
Proof.
  induction l as [|r l IH] using rev_ind; [done|].
  unfold groupBy in *. rewrite foldl_snoc, filter_app, lookup_insert.
  rewrite filter_cons, filter_nil. case_decide as Hk.
  - subst k. rewrite IH.
    by destruct (filter (λ r0, propertyKey (f r0) = propertyKey (f r)) l).
  - by rewrite app_nil_r.
Qed.

Lemma filter_fmap {A B} (g : A → B) (P : B → Prop) `{∀ x, Decision (P x)}
    (l : list A) :
  filter P (g <$> l) = g <$> filter (P ∘ g) l.
Proof.
  induction l as [|x l IH]; [done|].
  rewrite fmap_cons, !filter_cons. simpl.
  case_decide; by rewrite ?fmap_cons, IH.
Qed.

Lemma StronglySorted_filter_impl {A} (R1 R2 : relation A) (P : A → Prop)
    `{∀ x, Decision (P x)} (l : list A) :
  (∀ x y, P x → P y → R1 x y → R2 x y) →
  StronglySorted R1 l → StronglySorted R2 (filter P l).
Proof.
  intros Himpl. induction 1 as [|x l _ IH Hx]; [constructor|].
  rewrite filter_cons. case_decide as HP; [|done].
  constructor; [done|]. apply Forall_forall. intros y Hy.
  apply list_elem_of_filter in Hy as [HPy Hy].
  rewrite Forall_forall in Hx. by auto.
Qed.

(** Pairing records with their positions. *)

Lemma decorate_from_elem_of (l : list T) (n : nat) (x : nat * T) :
  x ∈ imap (λ i r, (n + i, r)) l ↔ n ≤ x.1 ∧ l !! (x.1 - n) = Some x.2.
Proof.
  rewrite elem_of_lookup_imap. split.
  - intros (i & r & -> & Hr). simpl. split; [lia|].
    by replace (n + i - n) with i by lia.
  - intros [Hle Hr]. exists (x.1 - n), x.2. split; [|done].
    destruct x as [i r]. simpl in *. f_equal. lia.
Qed.

Lemma decorate_from_sorted (l : list T) (n : nat) :
  StronglySorted (λ a b : nat * T, a.1 < b.1) (imap (λ i r, (n + i, r)) l).
Proof.
  revert n. induction l as [|x l IH]; intros n; [constructor|].
  rewrite imap_cons.
  rewrite (imap_ext _ (λ i r, (S n + i, r))) by (intros; simpl; f_equal; lia).
  constructor; [done|]. apply Forall_forall. intros y Hy.
  apply decorate_from_elem_of in Hy as [Hy _]. simpl. lia.
Qed.

Lemma decorate_elem_of (l : list T) (x : nat * T) :
  x ∈ imap (λ i r, (i, r)) l ↔ l !! x.1 = Some x.2.
Proof.
  rewrite (decorate_from_elem_of l 0). rewrite Nat.sub_0_r.
  split; [by intros [_ ?]|]. split; [lia|done].
Qed.

Lemma decorate_sorted (l : list T) :
  StronglySorted (λ a b : nat * T, a.1 < b.1) (imap (λ i r, (i, r)) l).
Proof. apply (decorate_from_sorted l 0). Qed.

Lemma undecorate (l : list T) : (imap (λ i r, (i, r)) l).*2 = l.
Proof.
  rewrite fmap_imap.
  rewrite (imap_ext _ (const id)) by done.
  by rewrite imap_const, list_fmap_id.
Qed.

Lemma sortBy_Permutation (l : list T) (f : T → V) : sortBy l f ≡ₚ l.
Proof.
  unfold sortBy. rewrite merge_sort_Permutation. by rewrite undecorate.
Qed.

Section sorting.
Context `{!KeyOrder C}.

Global Instance compareAscending_total (f : T → V) :
  Total (compareAscending f).
Proof.
  intros [i x] [j y]. unfold compareAscending. simpl.
  destruct (key_le (f x) (f y)) eqn:Hxy, (key_le (f y) (f x)) eqn:Hyx.
  - destruct (decide (i ≤ j)); [left|right]; split; auto with lia.
  - left. split; [done|]. intros; congruence.
  - right. split; [done|]. intros; congruence.
  - destruct (key_le_total (f x) (f y)); congruence.
Qed.

Global Instance compareAscending_trans (f : T → V) :
  Transitive (compareAscending f).
Proof.
  intros [i x] [j y] [k z]. unfold compareAscending. simpl.
  intros [Hxy Hij] [Hyz Hjk]. split.
  - by eapply key_le_trans.
  - intros Hzx.
    assert (key_le (f y) (f x) = true) as Hyx by by eapply key_le_trans.
    assert (key_le (f z) (f y) = true) as Hzy by by eapply key_le_trans.
    specialize (Hij Hyx). specialize (Hjk Hzy). lia.
Qed.

Lemma sortBy_sorted (l : list T) (f : T → V) :
  StronglySorted (λ x y, key_le (f x) (f y) = true) (sortBy l f).
Proof.
  unfold sortBy.
  apply (StronglySorted_fmap snd (compareAscending f)).
  - by intros x y [? _].
  - apply StronglySorted_merge_sort; apply _.
Qed.

Lemma tie_trans (f : T → V) (k : V) (x y : T) :
  tie f k x → tie f k y → key_le (f x) (f y) = true.
Proof.
  unfold tie. intros [Hx _]%andb_True [_ Hy]%andb_True.
  apply Is_true_true in Hx, Hy. by eapply key_le_trans.
Qed.

Lemma sortBy_stable (l : list T) (f : T → V) (k : V) :
  filter (λ r, tie f k r) (sortBy l f) = filter (λ r, tie f k r) l.
Proof.
  unfold sortBy. rewrite <- (undecorate l) at 2. rewrite !filter_fmap.
  f_equal. set (d := imap (λ i r, (i, r)) l).
  apply (StronglySorted_unique_strong (compareAscending f)).
  - intros [i x] [j y] Hx%list_elem_of_filter Hy%list_elem_of_filter.
    destruct Hx as [_ Hx], Hy as [_ Hy].
    rewrite merge_sort_Permutation in Hx.
    apply decorate_elem_of in Hx, Hy. simpl in *.
    intros [Hxy Hij] [Hyx Hji]. simpl in *.
    assert (i = j) as -> by (specialize (Hij Hyx); specialize (Hji Hxy); lia).
    congruence.
  - apply (StronglySorted_filter_impl (compareAscending f)); [done|].
    apply StronglySorted_merge_sort; apply _.
  - apply (StronglySorted_filter_impl (λ a b : nat * T, a.1 < b.1));
      [|apply decorate_sorted].
    intros [i x] [j y] Hx Hy Hij. simpl in *. split; simpl.
    + by eapply tie_trans.
    + intros _. lia.
  - by rewrite merge_sort_Permutation.
Qed.

Lemma tie_refl (f : T → V) (r : T) : tie f (f r) r.
Proof.
  unfold tie. destruct (key_le_total (f r) (f r)) as [H|H]; by rewrite H.
Qed.

End sorting.

(** ** Helper facts about reachable states *)

Lemma reachable_cache st name v :
  reachable st → accessors st !! name = Some v →
  absent (cache v) ∨
  ∃ a, cache v = JObject (ViewAddr a) ∧
       heap st !! a = Some (run_op (op v) (raw st) (from v)).
Proof. intros Hr Hv. by apply (inv_cache st (reachable_invariant st Hr) name). Qed.

(** Reading a declared view in a reachable state returns the address of an
    object equal to what the builder returns on the current [raw]. *)
Lemma get_reachable st name v :
  reachable st → accessors st !! name = Some v →
  ∃ a st',
    get name st = (Return (JObject (ViewAddr a)), st') ∧
    heap st' !! a = Some (run_op (op v) (raw st) (from v)) ∧
    elements st' = elements st ∧ raw st' = raw st ∧
    length (heap st') ≤ S (length (heap st)) ∧
    get name st' = (Return (JObject (ViewAddr a)), st').
Proof.
  intros Hr Hv. destruct (reachable_cache st name v Hr Hv) as [Ha|(a & Hc & Ha)].
  - eexists _, _. split; [by apply get_absent|]. simpl.
    rewrite lookup_app_r, Nat.sub_diag by done.
    repeat split; try done.
    + rewrite length_app. simpl. lia.
    + set (obj := JObject _). set (st' := State _ _ _ _ _ _).
      apply (get_cached name (set_cache obj v) st'); [|done].
      apply lookup_insert_eq.
  - exists a, st. assert (truthy (cache v) = true) as Ht by by rewrite Hc.
    rewrite <- Hc. repeat split; try done.
    + by apply get_cached.
    + lia.
    + by apply get_cached.
Qed.

(** What the [immutable] flag does: the instance gets own properties [push]
    and [splice] holding [undefined]; the other four wrapped methods are
    still found on the prototype. *)
Lemma immutable_own_undefined (cfg : config T) st :
  new_Registry cfg = Return st →
  own_undefined st = if immutable cfg then [push; splice] else [].
Proof.
  intros Hnew. destruct (new_Registry_cases cfg) as [[_ H]|[_ [name H]]];
    rewrite H in Hnew; by simplify_eq.
Qed.

Lemma immutable_invoke (cfg : config T) st c :
  new_Registry cfg = Return st → immutable cfg = true →
  invoke c st =
  if decide (method_of c = push ∨ method_of c = splice)
  then (Throw (NotAFunctionTypeError (method_of c)), st)
  else wrapped c st.
Proof.
  intros Hnew Him. apply immutable_own_undefined in Hnew.
  rewrite Him in Hnew. unfold invoke. rewrite Hnew.
  destruct c; simpl; by repeat case_decide.
Qed.

(** ** The properties of the specification *)

(** C1 (invalidate-then-recompute).  After any wrapped operation that
    completes on a reachable instance, the cache of every declared view is
    absent, and reading any declared view returns the address of an object
    equal to the result of running that view's builder ([_.groupBy],
    [_.indexBy] or [_.sortBy], with the path getter of the view's property)
    on the current [raw]. *)
Theorem invalidate_then_recompute st c (r : retval T) st' name v :
  reachable st →
  invoke c st = (Return r, st') →
  accessors st' !! name = Some v →
  absent (cache v) ∧
  (∃ prop, name = inflect_of (op v) prop ∧ from v = pathGetter prop) ∧
  ∃ a st'',
    get name st' = (Return (JObject (ViewAddr a)), st'') ∧
    heap st'' !! a = Some (run_op (op v) (raw st') (from v)).
Proof.
  intros Hr Hcall Hv.
  pose proof (reachable_invariant st Hr) as Hinv.
  destruct (decide (method_of c ∈ own_undefined st)) as [Hm|Hm].
  { rewrite invoke_undefined in Hcall by done. congruence. }
  rewrite invoke_callable in Hcall by done.
  assert (st' = (wrapped c st).2) as -> by by rewrite Hcall.
  pose proof (invariant_wrapped c st Hinv) as Hinv'.
  assert (absent (cache v)) as Habs.
  { rewrite wrapped_spec in Hv. simpl in Hv.
    rewrite lookup_invalidate in Hv. case_decide as Hin.
    - apply fmap_Some in Hv as (v0 & _ & ->). done.
    - destruct Hin. apply (inv_names st Hinv). exists v. done. }
  split; [done|]. split; [by apply (inv_origin _ Hinv' name)|].
  eexists _, _. split; [by apply get_absent|]. simpl.
  by rewrite lookup_app_r, Nat.sub_diag.
Qed.

(** C2 (mirror consistency).  In every state reached from a constructor call
    by wrapped operations (the seeding with [config.initialSet] included),
    [this.raw] and the public sequence have the same length and the same
    elements in the same order. *)
Theorem mirror_consistency st :
  reachable st →
  elements st = raw st ∧ length (elements st) = length (raw st).
Proof.
  intros Hr. pose proof (inv_mirror st (reachable_invariant st Hr)) as Hm.
  by rewrite Hm.
Qed.

(** C4 (uniqueness enforcement).  When two declarations of a configuration
    derive the same public name, the constructor throws the [TypeError] of
    [Object.defineProperty] and returns no instance. *)
Theorem duplicate_name_fails (cfg : config T) i j name :
  i ≠ j →
  declared_names cfg !! i = Some name →
  declared_names cfg !! j = Some name →
  ∃ n, new_Registry (V := V) cfg = Throw (RedefineTypeError n).
Proof.
  intros Hij Hi Hj. apply Registry_clash. intros Hnd.
  apply Hij. by eapply NoDup_lookup.
Qed.

(** C5 (immutable write rejection), as amended.  Assigning to a declared
    view any value that is not the [CLEAR_CACHE] object itself throws the
    setter's [TypeError] and leaves the whole state as it was, so the cache
    and every later read are as if nothing had been assigned; an assignment
    returns normally exactly when the value is [CLEAR_CACHE], compared by
    reference identity.  That code outside the module cannot pass
    [CLEAR_CACHE] is not part of the statement. *)
Theorem external_write_rejected st name v val :
  accessors st !! name = Some v →
  val ≠ CLEAR_CACHE →
  put name val st = (Throw (SetterTypeError (setter_message name)), st) ∧
  ∀ val', (put name val' st).1 = Return tt ↔ val' = CLEAR_CACHE.
Proof.
  intros Hv Hval. split; [by apply (put_rejected name v)|].
  intros val'. split.
  - intros Hput. destruct (decide (val' = CLEAR_CACHE)) as [|Hne]; [done|].
    by rewrite (put_rejected name v) in Hput.
  - intros ->. by rewrite put_CLEAR_CACHE.
Qed.

(** C6 (return values).  A wrapped method applies the Array primitive to the
    public sequence, sets the cache of every declared view to [false], and
    returns exactly what the primitive returns when applied with the same
    arguments to [this.raw], which it updates in the same way. *)
Theorem wrapped_returns_raw_result st c :
  reachable st →
  ∃ st',
    wrapped c st = (Return (orig c (raw st)).2, st') ∧
    elements st' = (orig c (elements st)).1 ∧
    raw st' = (orig c (raw st)).1 ∧
    (∀ name, declared name st' ↔ declared name st) ∧
    (∀ name v, accessors st' !! name = Some v → cache v = JBool false).
Proof.
  intros Hr. pose proof (reachable_invariant st Hr) as Hinv.
  eexists. split; [apply wrapped_spec|]. simpl. repeat split; try done.
  - unfold declared. simpl. by rewrite is_Some_invalidate.
  - unfold declared. simpl. by rewrite is_Some_invalidate.
  - intros name v Hv. rewrite lookup_invalidate in Hv. case_decide as Hin.
    + apply fmap_Some in Hv as (v0 & _ & ->). done.
    + destruct Hin. apply (inv_names st Hinv). by exists v.
Qed.

(** C7 (index collision policy).  Reading an index-by-key view returns a
    mapping that binds each key to the last record of the collection, in
    its current order, that resolves to that key. *)
Theorem index_view_last_wins st name v :
  reachable st →
  accessors st !! name = Some v →
  op v = indexBy_op →
  ∃ a st' m,
    get name st = (Return (JObject (ViewAddr a)), st') ∧
    heap st' !! a = Some (Indexed m) ∧
    ∀ k, m !! k = last (filter (λ r, propertyKey (from v r) = k) (raw st)).
Proof.
  intros Hr Hv Hop.
  destruct (get_reachable st name v Hr Hv) as (a & st' & Hget & Ha & _).
  rewrite Hop in Ha. exists a, st', (indexBy (raw st) (from v)).
  split; [done|]. split; [done|]. intros k. apply lookup_indexBy.
Qed.

(** C8 (order stability).  Provided the comparison of resolved keys is a
    total preorder, reading an order-by-key view returns a new sequence that
    is a permutation of the collection, sorted ascending by resolved key, in
    which records whose keys tie (equal keys in particular, see [tie_refl])
    keep the relative order they have in the collection; the read leaves the
    collection as it was. *)
Theorem order_view_stable_sort `{!KeyOrder C} st name v :
  reachable st →
  accessors st !! name = Some v →
  op v = sortBy_op →
  ∃ a st' s,
    get name st = (Return (JObject (ViewAddr a)), st') ∧
    heap st' !! a = Some (Ordered s) ∧
    s ≡ₚ raw st ∧
    StronglySorted (λ x y, key_le (from v x) (from v y) = true) s ∧
    (∀ k, filter (λ r, tie (from v) k r) s =
          filter (λ r, tie (from v) k r) (raw st)) ∧
    elements st' = elements st ∧ raw st' = raw st.
Proof.
  intros Hr Hv Hop.
  destruct (get_reachable st name v Hr Hv)
    as (a & st' & Hget & Ha & He & Hraw & _).
  rewrite Hop in Ha. exists a, st', (sortBy (raw st) (from v)).
  split; [done|]. split; [done|].
  split; [apply sortBy_Permutation|].
  split; [apply sortBy_sorted|].
  split; [intros k; apply sortBy_stable|done].
Qed.

(** C9 (idempotent read).  Two consecutive reads of a declared view return
    the same object address; the second read changes nothing, and the two
    reads together make the builder allocate at most one object. *)
Theorem read_twice_identical st name :
  reachable st →
  declared name st →
  ∃ a st1,
    get name st = (Return (JObject (ViewAddr a)), st1) ∧
    get name st1 = (Return (JObject (ViewAddr a)), st1) ∧
    length (heap st1) ≤ S (length (heap st)).
Proof.
  intros Hr [v Hv].
  destruct (get_reachable st name v Hr Hv)
    as (a & st' & Hget & _ & _ & _ & Hlen & Hget').
  by exists a, st'.
Qed.

(** C10 (frame of a read).  Reading a view changes neither the public
    sequence nor [this.raw] nor the cache of any other view nor any object
    already in the heap; the view that is read keeps its builder and path
    getter, and its cache changes only if it was absent. *)
Theorem read_frame st name :
  elements (get name st).2 = elements st ∧
  raw (get name st).2 = raw st ∧
  _indexNames (get name st).2 = _indexNames st ∧
  own_undefined (get name st).2 = own_undefined st ∧
  heap st `prefix_of` heap (get name st).2 ∧
  (∀ other, other ≠ name →
     accessors (get name st).2 !! other = accessors st !! other) ∧
  (∀ v, accessors st !! name = Some v →
     ∃ new, accessors (get name st).2 !! name = Some (set_cache new v) ∧
           (truthy (cache v) = true → (get name st).2 = st)).
Proof.
  unfold get. destruct (accessors st !! name) as [v|] eqn:Hv; simpl.
  2: { repeat split; done. }
  unfold getter. destruct (truthy (cache v)) eqn:Ht; simpl.
  - repeat split; try done. intros v' [= <-]. exists (cache v).
    split; [by destruct v|done].
  - repeat split; try done.
    + by apply prefix_app_r.
    + intros other Hne. by rewrite lookup_insert_ne.
    + intros v' [= <-]. eexists. split; [apply lookup_insert_eq|].
      intros Ht'. congruence.
Qed.

End Proofs.

(** * The sample instance *)

Import Sample.

Global Instance sample_key_order : KeyOrder collaborators.
Proof.
  split.
  - intros [x|] [y|]; simpl; auto.
    destruct (Z.leb_spec x y), (Z.leb_spec y x); auto. lia.
  - intros [x|] [y|] [z|]; simpl; try done.
    rewrite !Z.leb_le. lia.
Qed.

(** The scenarios of the specification, evaluated. *)

Example sample_names :
  new_Registry cfg_all = Return st_all ∧
  _indexNames st_all = ["byN"; "byId"; "inNOrder"; "inIdOrder"].
Proof. vm_compute. by split. Qed.

Example sample_group_view :
  deref (get "byId" st_group) =
  Some (Grouped {[ "1" := [d1; d3]; "2" := [d2] ]}).
Proof. vm_compute. reflexivity. Qed.

Example sample_index_view :
  deref (get "byId" st_pushed) = Some (Indexed {[ "1" := d3; "2" := d2 ]}).
Proof. vm_compute. reflexivity. Qed.

Example sample_order_view :
  deref (get "inNOrder" st_pushed) = Some (Ordered [d2; d3; d1]) ∧
  deref (get "inIdOrder" st_pushed) = Some (Ordered [d1; d3; d2]).
Proof. vm_compute. by split. Qed.

Example sample_clash :
  new_Registry cfg_clash = Throw (RedefineTypeError "byId").
Proof. vm_compute. reflexivity. Qed.

Example sample_assignment :
  (put "byId" (JString "x") st_all).1 =
  Throw (SetterTypeError
           "byId can not be set, it is a computed index of values").
Proof. vm_compute. reflexivity. Qed.

(** C3 (immutability).  An instance constructed with [immutable: true] has
    only [push] and [splice] removed: calling [push] throws and leaves the
    instance alone, but [pop] is still callable, returns the last element and
    changes the content of the collection. *)
Theorem immutable_registry_still_mutable :
  new_Registry cfg_frozen = Return st_frozen ∧
  elements st_frozen = [d1; d2] ∧
  invoke (Push [d3]) st_frozen =
    (Throw (NotAFunctionTypeError push), st_frozen) ∧
  (invoke Pop st_frozen).1 = Return (RElement d2) ∧
  elements (step (Call Pop) st_frozen) = [d1] ∧
  raw (step (Call Pop) st_frozen) = [d1].
Proof. vm_compute. repeat split. Qed.

(** ** The theorems at concrete inputs *)

Ltac by_evaluation := vm_compute; reflexivity.

Lemma invalidate_then_recompute_witness :
  reachable st_all ∧
  invoke (Push [d3]) st_all = (Return (RLength 3), st_pushed) ∧
  accessors st_pushed !! "byId" = Some v_byId ∧
  absent (cache v_byId) ∧
  (∃ prop, "byId" = inflect_of (op v_byId) prop ∧
           from v_byId = pathGetter prop) ∧
  ∃ a st'',
    get "byId" st_pushed = (Return (JObject (ViewAddr a)), st'') ∧
    heap st'' !! a = Some (run_op (op v_byId) (raw st_pushed) (from v_byId)).
Proof.
  assert (reachable st_all) as Hr
    by (apply (reachable_new cfg_all); by_evaluation).
  assert (invoke (Push [d3]) st_all = (Return (RLength 3), st_pushed))
    as Hcall by by_evaluation.
  assert (accessors st_pushed !! "byId" = Some v_byId) as Hv by by_evaluation.
  split; [exact Hr|]. split; [exact Hcall|]. split; [exact Hv|].
  exact (invalidate_then_recompute st_all (Push [d3]) (RLength 3) st_pushed
           "byId" v_byId Hr Hcall Hv).
Defined.

Lemma mirror_consistency_witness :
  reachable st_pushed ∧
  elements st_pushed = raw st_pushed ∧
  length (elements st_pushed) = length (raw st_pushed).
Proof.
  assert (reachable st_all) as Hr
    by (apply (reachable_new cfg_all); by_evaluation).
  assert (reachable st_pushed) as Hr'
    by exact (reachable_step (Call (Push [d3])) st_all Hr I).
  split; [exact Hr'|]. exact (mirror_consistency st_pushed Hr').
Defined.

Lemma duplicate_name_fails_witness :
  0 ≠ 1 ∧
  declared_names cfg_clash !! 0 = Some "byId" ∧
  declared_names cfg_clash !! 1 = Some "byId" ∧
  ∃ n, new_Registry cfg_clash = Throw (RedefineTypeError n).
Proof.
  assert (0 ≠ 1) as Hne by lia.
  assert (declared_names cfg_clash !! 0 = Some "byId") as H0 by by_evaluation.
  assert (declared_names cfg_clash !! 1 = Some "byId") as H1 by by_evaluation.
  split; [exact Hne|]. split; [exact H0|]. split; [exact H1|].
  exact (duplicate_name_fails cfg_clash 0 1 "byId" Hne H0 H1).
Defined.

Lemma external_write_rejected_witness :
  accessors st_all !! "byId" = Some v_byId ∧
  JObject (ForeignAddr 0) ≠ CLEAR_CACHE ∧
  put "byId" (JObject (ForeignAddr 0)) st_all =
    (Throw (SetterTypeError (setter_message "byId")), st_all) ∧
  ∀ val', (put "byId" val' st_all).1 = Return tt ↔ val' = CLEAR_CACHE.
Proof.
  assert (accessors st_all !! "byId" = Some v_byId) as Hv by by_evaluation.
  assert (JObject (ForeignAddr 0) ≠ CLEAR_CACHE) as Hval by discriminate.
  split; [exact Hv|]. split; [exact Hval|].
  exact (external_write_rejected st_all "byId" v_byId
           (JObject (ForeignAddr 0)) Hv Hval).
Defined.

(** C5, counterexample.  Code outside the module applies [_clearIndices] to
    an object of its own whose [_indexNames] is [["x"]] and finds the
    [CLEAR_CACHE] object in the property [x].  Assigning that value to the
    view [byId], which has been read before, does not throw; it empties the
    cache, so the next read builds a new object at address 1, where without
    the assignment it returns the cached object at address 0. *)
Lemma sentinel_assignment_accepted :
  ∃ val,
    _clearIndices_on ["x"] ∅ !! "x" = Some val ∧
    declared "byId" st_read ∧
    put "byId" val st_read ≠
      (Throw (SetterTypeError (setter_message "byId")), st_read) ∧
    (put "byId" val st_read).1 = Return tt ∧
    (get "byId" st_read).1 = Return (JObject (ViewAddr 0)) ∧
    (get "byId" (put "byId" val st_read).2).1 = Return (JObject (ViewAddr 1)).
Proof.
  exists CLEAR_CACHE. split; [by_evaluation|].
  split; [eexists; by_evaluation|].
  split.
  { intros H. apply (f_equal fst) in H. vm_compute in H. discriminate. }
  repeat split; by_evaluation.
Qed.

Lemma wrapped_returns_raw_result_witness :
  reachable st_all ∧
  ∃ st',
    wrapped Pop st_all = (Return (orig Pop (raw st_all)).2, st') ∧
    elements st' = (orig Pop (elements st_all)).1 ∧
    raw st' = (orig Pop (raw st_all)).1 ∧
    (∀ name, declared name st' ↔ declared name st_all) ∧
    (∀ name v, accessors st' !! name = Some v → cache v = JBool false).
Proof.
  assert (reachable st_all) as Hr
    by (apply (reachable_new cfg_all); by_evaluation).
  split; [exact Hr|]. exact (wrapped_returns_raw_result st_all Pop Hr).
Defined.

Lemma index_view_last_wins_witness :
  reachable st_pushed ∧
  accessors st_pushed !! "byId" = Some v_byId ∧
  op v_byId = indexBy_op ∧
  ∃ a st' m,
    get "byId" st_pushed = (Return (JObject (ViewAddr a)), st') ∧
    heap st' !! a = Some (Indexed m) ∧
    ∀ k, m !! k =
         last (filter (λ r, propertyKey (from v_byId r) = k) (raw st_pushed)).
Proof.
  assert (reachable st_all) as Hr
    by (apply (reachable_new cfg_all); by_evaluation).
  assert (reachable st_pushed) as Hr'
    by exact (reachable_step (Call (Push [d3])) st_all Hr I).
  assert (accessors st_pushed !! "byId" = Some v_byId) as Hv by by_evaluation.
  split; [exact Hr'|]. split; [exact Hv|]. split; [reflexivity|].
  exact (index_view_last_wins st_pushed "byId" v_byId Hr' Hv eq_refl).
Defined.

Lemma order_view_stable_sort_witness :
  reachable st_pushed ∧
  accessors st_pushed !! "inNOrder" = Some v_inNOrder ∧
  op v_inNOrder = sortBy_op ∧
  ∃ a st' s,
    get "inNOrder" st_pushed = (Return (JObject (ViewAddr a)), st') ∧
    heap st' !! a = Some (Ordered s) ∧
    s ≡ₚ raw st_pushed ∧
    StronglySorted
      (λ x y, key_le (from v_inNOrder x) (from v_inNOrder y) = true) s ∧
    (∀ k, filter (λ r, tie (from v_inNOrder) k r) s =
          filter (λ r, tie (from v_inNOrder) k r) (raw st_pushed)) ∧
    elements st' = elements st_pushed ∧ raw st' = raw st_pushed.
Proof.
  assert (reachable st_all) as Hr
    by (apply (reachable_new cfg_all); by_evaluation).
  assert (reachable st_pushed) as Hr'
    by exact (reachable_step (Call (Push [d3])) st_all Hr I).
  assert (accessors st_pushed !! "inNOrder" = Some v_inNOrder) as Hv
    by by_evaluation.
  split; [exact Hr'|]. split; [exact Hv|]. split; [reflexivity|].
  exact (order_view_stable_sort st_pushed "inNOrder" v_inNOrder Hr' Hv eq_refl).
Defined.

Lemma read_twice_identical_witness :
  reachable st_pushed ∧
  declared "byId" st_pushed ∧
  ∃ a st1,
    get "byId" st_pushed = (Return (JObject (ViewAddr a)), st1) ∧
    get "byId" st1 = (Return (JObject (ViewAddr a)), st1) ∧
    length (heap st1) ≤ S (length (heap st_pushed)).
Proof.
  assert (reachable st_all) as Hr
    by (apply (reachable_new cfg_all); by_evaluation).
  assert (reachable st_pushed) as Hr'
    by exact (reachable_step (Call (Push [d3])) st_all Hr I).
  assert (declared "byId" st_pushed) as Hd by (exists v_byId; by_evaluation).
  split; [exact Hr'|]. split; [exact Hd|].
  exact (read_twice_identical st_pushed "byId" Hr' Hd).
Defined.

(** * Further properties of the code *)

Section More.
Context {T V : Type} `{C : !Collaborators T V}.
Implicit Types (st : state T V) (c : invocation T) (v : view T V).
Implicit Types (name : string) (es : list (event T)).

(** ** The constructor *)

Lemma NoDup_fmap_elem_inj {A B} (f : A → B) (l : list A) x y :
  NoDup (f <$> l) → x ∈ l → y ∈ l → f x = f y → x = y.
Proof.
  induction l as [|z l IH]; intros Hnd Hx Hy Hf.
  { by apply elem_of_nil in Hx. }
  rewrite fmap_cons in Hnd. apply NoDup_cons in Hnd as [Hz Hnd].
  apply elem_of_cons in Hx as [->|Hx], Hy as [->|Hy]; [done| | |by apply IH].
  - destruct Hz. rewrite Hf. by apply list_elem_of_fmap_2.
  - destruct Hz. rewrite <- Hf. by apply list_elem_of_fmap_2.
Qed.

Lemma lookup_declare_elem (inflect : string → string) o ps
    (a : gmap string (view T V)) p :
  NoDup (inflect <$> ps) → p ∈ ps →
  declare inflect o ps a !! inflect p = Some (View o (pathGetter p) JUndefined).
Proof.
  intros Hnd Hp. rewrite lookup_declare.
  destruct (last (filter (λ q, inflect q = inflect p) ps)) as [q|] eqn:Hl.
  - apply last_Some_elem_of, list_elem_of_filter in Hl as [Hq Hin].
    by rewrite (NoDup_fmap_elem_inj inflect ps q p).
  - apply last_None in Hl.
    assert (p ∈ filter (λ q, inflect q = inflect p) ps) as Hf
      by by apply list_elem_of_filter.
    rewrite Hl in Hf. by apply elem_of_nil in Hf.
Qed.

Lemma lookup_declare_other (inflect : string → string) o ps
    (a : gmap string (view T V)) name :
  name ∉ inflect <$> ps → declare inflect o ps a !! name = a !! name.
Proof.
  intros Hn. rewrite lookup_declare.
  destruct (last (filter (λ q, inflect q = name) ps)) as [q|] eqn:Hl; [|done].
  apply last_Some_elem_of, list_elem_of_filter in Hl as [<- Hin].
  destruct Hn. by apply list_elem_of_fmap_2.
Qed.

(** A view found among the declarations is found, with the same builder and
    path getter, in the constructed instance. *)
Lemma constructed_lookup (cfg : config T) name v0 :
  declare_all cfg !! name = Some v0 →
  ∃ v, accessors (constructed (V := V) cfg) !! name = Some v ∧
       op v = op v0 ∧ from v = from v0.
Proof.
  intros Hv0. unfold constructed. simpl. destruct (initialSet cfg).
  - rewrite lookup_invalidate, Hv0. case_decide; eauto.
  - eauto.
Qed.

(** X1.  [new Registry(config)] returns an instance exactly when the public
    names derived from [config.group], [config.index] and [config.order]
    are pairwise distinct. *)
Theorem construction_succeeds_iff (cfg : config T) :
  NoDup (declared_names cfg) ↔ ∃ st, new_Registry (V := V) cfg = Return st.
Proof.
  destruct (new_Registry_cases (V := V) cfg) as [[Hnd H]|[Hdup [name H]]].
  - split; [by eauto|done].
  - split; [done|]. intros [st Hst]. congruence.
Qed.

(** X2.  The instance returned by the constructor holds the initial set (or
    nothing) in its public sequence and in [raw], which is what [toJSON]
    returns; [_indexNames] lists the derived names in the order group, index,
    order, without repetition; exactly these names are views; no builder has
    run and every cache is absent. *)
Theorem construction_postcondition (cfg : config T) st :
  new_Registry cfg = Return st →
  elements st = default [] (initialSet cfg) ∧
  toJSON st = default [] (initialSet cfg) ∧
  _indexNames st = declared_names cfg ∧
  NoDup (_indexNames st) ∧
  (∀ name, declared name st ↔ name ∈ declared_names cfg) ∧
  (∀ name v, accessors st !! name = Some v → absent (cache v)) ∧
  heap st = [].
Proof.
  intros Hnew.
  destruct (new_Registry_cases (V := V) cfg) as [[Hnd H]|[_ [name H]]];
    rewrite H in Hnew; simplify_eq.
  pose proof (invariant_constructed (V := V) cfg) as [_ Hn Hc _].
  repeat split; try done.
  - by apply Hn.
  - by apply Hn.
  - intros name v Hv. unfold constructed in Hv. simpl in Hv.
    destruct (initialSet cfg).
    + rewrite lookup_invalidate in Hv. case_decide.
      * apply fmap_Some in Hv as (v0 & _ & ->). done.
      * apply lookup_declare_all in Hv as [Hu _]. by rewrite Hu.
    + apply lookup_declare_all in Hv as [Hu _]. by rewrite Hu.
Qed.

(** X3.  Every property listed in [config.group] gets a view built by
    [_.groupBy], every property in [config.index] one built by [_.indexBy]
    and every property in [config.order] one built by [_.sortBy], each under
    its inflected name and with the path getter of that property. *)
Theorem configured_views (cfg : config T) st :
  new_Registry cfg = Return st →
  (∀ p, p ∈ default [] (group cfg) →
     ∃ v, accessors st !! inflectIndex p = Some v ∧
          op v = groupBy_op ∧ from v = pathGetter p) ∧
  (∀ p, p ∈ default [] (index cfg) →
     ∃ v, accessors st !! inflectIndex p = Some v ∧
          op v = indexBy_op ∧ from v = pathGetter p) ∧
  (∀ p, p ∈ default [] (order cfg) →
     ∃ v, accessors st !! inflectOrder p = Some v ∧
          op v = sortBy_op ∧ from v = pathGetter p).
Proof.
  intros Hnew.
  destruct (new_Registry_cases (V := V) cfg) as [[Hnd H]|[_ [name H]]];
    rewrite H in Hnew; simplify_eq.
  unfold declared_names in Hnd.
  apply NoDup_app in Hnd as (Hg & Hgio & Hnd).
  apply NoDup_app in Hnd as (Hi & Hio & Ho).
  split; [|split]; intros p Hp.
  - apply (constructed_lookup cfg _
             (View groupBy_op (pathGetter p) JUndefined)).
    assert (inflectIndex p ∈ inflectIndex <$> default [] (group cfg)) as Hin
      by by apply list_elem_of_fmap_2.
    specialize (Hgio _ Hin). rewrite elem_of_app in Hgio.
    unfold declare_all.
    rewrite (lookup_declare_other inflectOrder) by tauto.
    rewrite (lookup_declare_other inflectIndex) by tauto.
    by apply lookup_declare_elem.
  - apply (constructed_lookup cfg _
             (View indexBy_op (pathGetter p) JUndefined)).
    unfold declare_all. rewrite lookup_declare_other.
    + by apply lookup_declare_elem.
    + intros Hin. apply (Hio (inflectIndex p)); [|done].
      by apply list_elem_of_fmap_2.
  - apply (constructed_lookup cfg _
             (View sortBy_op (pathGetter p) JUndefined)).
    unfold declare_all. by apply lookup_declare_elem.
Qed.


(** ** What each event leaves unchanged *)

Lemma put_state name val st :
  ∃ a, (put name val st).2 = set_accessors a st.
Proof.
  unfold put. destruct (accessors st !! name) as [v|].
  - unfold setter. destruct (strict_equals val CLEAR_CACHE).
    + by eexists.
    + exists (accessors st). by rewrite set_accessors_id.
  - exists (accessors st). by rewrite set_accessors_id.
Qed.

Lemma get_state name st :
  (get name st).2 = st ∨
  ∃ v, accessors st !! name = Some v ∧ absent (cache v) ∧
       (get name st).2 =
       State (elements st) (raw st)
             (<[name := set_cache (JObject (ViewAddr (length (heap st)))) v]>
                (accessors st))
             (_indexNames st) (own_undefined st)
             (heap st ++ [run_op (op v) (raw st) (from v)]).
Proof.
  destruct (accessors st !! name) as [v|] eqn:Hv.
  - destruct (truthy (cache v)) eqn:Ht.
    + left. by rewrite (get_cached name v).
    + right. exists v. by rewrite (get_absent name v).
  - left. unfold get. by rewrite Hv.
Qed.

Lemma step_own_undefined (e : event T) st :
  own_undefined (step e st) = own_undefined st.
Proof.
  destruct e as [c|name|name val]; simpl.
  - unfold invoke. case_decide; [done|]. by rewrite wrapped_spec.
  - destruct (get_state name st) as [->|(v & _ & _ & ->)]; done.
  - destruct (put_state name val st) as [a ->]. done.
Qed.

Lemma run_own_undefined es st :
  own_undefined (run es st) = own_undefined st.
Proof.
  revert st. induction es as [|e es IH]; intros st; [done|].
  simpl. fold (run es (step e st)). by rewrite IH, step_own_undefined.
Qed.

Lemma reachable_own_undefined st :
  reachable st → own_undefined st = [] ∨ own_undefined st = [push; splice].
Proof.
  induction 1 as [cfg st Hnew|e st _ IH _].
  - rewrite (immutable_own_undefined cfg st Hnew).
    destruct (immutable cfg); auto.
  - by rewrite step_own_undefined.
Qed.

(** X4.  On an instance constructed with [immutable: true], [push] and
    [splice] stay uncallable under client events: after any sequence of
    method calls, reads of views and assignments to views, calling either
    throws and leaves the instance exactly as it was. *)
Theorem immutable_never_reenabled (cfg : config T) st es c :
  new_Registry cfg = Return st →
  immutable cfg = true →
  client_events es st →
  method_of c = push ∨ method_of c = splice →
  invoke c (run es st) =
  (Throw (NotAFunctionTypeError (method_of c)), run es st).
Proof.
  intros Hnew Him _ Hm. apply invoke_undefined.
  rewrite run_own_undefined, (immutable_own_undefined cfg st Hnew), Him.
  destruct Hm as [-> | ->]; [by left|right; by left].
Qed.

(** X5.  On an instance constructed without [immutable], no wrapped method
    throws under client events: after any sequence of method calls, reads of
    views and assignments to views, every call returns what the Array
    primitive returns on [raw]. *)
Theorem mutable_call_never_throws (cfg : config T) st es c :
  new_Registry cfg = Return st →
  immutable cfg = false →
  client_events es st →
  (invoke c (run es st)).1 = Return (orig c (raw (run es st))).2.
Proof.
  intros Hnew Him _. rewrite invoke_callable, wrapped_spec; [done|].
  rewrite run_own_undefined, (immutable_own_undefined cfg st Hnew), Him.
  apply not_elem_of_nil.
Qed.

(** X6.  [pop], [shift], [unshift] and [reverse] are callable in every
    reachable state, whatever the [immutable] flag was: the call returns what
    the Array primitive returns on [raw] and updates both sequences. *)
Theorem unshadowed_methods_callable st c :
  reachable st →
  method_of c ≠ push →
  method_of c ≠ splice →
  ∃ st',
    invoke c st = (Return (orig c (raw st)).2, st') ∧
    elements st' = (orig c (elements st)).1 ∧
    raw st' = (orig c (raw st)).1.
Proof.
  intros Hr Hpush Hsplice. eexists.
  rewrite invoke_callable, wrapped_spec; [done|].
  destruct (reachable_own_undefined st Hr) as [-> | ->].
  - apply not_elem_of_nil.
  - rewrite !elem_of_cons, elem_of_nil. tauto.
Qed.

(** ** Laziness and caching *)

Lemma step_heap (e : event T) st :
  heap st `prefix_of` heap (step e st) ∧
  length (heap (step e st)) ≤
  length (heap st) + (if is_Read e then 1 else 0).
Proof.
  destruct e as [c|name|name val]; simpl.
  - unfold invoke. case_decide; [simpl; split; [done|lia]|].
    rewrite wrapped_spec. simpl. split; [done|lia].
  - destruct (get_state name st) as [->|(v & _ & _ & ->)]; simpl.
    + split; [done|lia].
    + split; [by apply prefix_app_r|]. rewrite length_app. simpl. lia.
  - destruct (put_state name val st) as [a ->]. simpl. split; [done|lia].
Qed.

(** X7.  Builders run only on reads: over any sequence of events the heap of
    view objects is only extended, and by at most one object per read; method
    calls and assignments allocate none. *)
Theorem builders_run_only_on_reads es st :
  heap st `prefix_of` heap (run es st) ∧
  length (heap (run es st)) ≤ length (heap st) + count_reads es.
Proof.
  revert st. induction es as [|e es IH]; intros st.
  { simpl. split; [done|]. unfold count_reads. simpl. lia. }
  simpl. fold (run es (step e st)).
  destruct (IH (step e st)) as [Hp Hl].
  destruct (step_heap e st) as [Hp1 Hl1]. split; [by etrans|].
  unfold count_reads in *. rewrite filter_cons.
  destruct e; simpl in *; lia.
Qed.


Lemma non_mutating_keeps_cache (e : event T) st name v :
  non_mutating e →
  accessors st !! name = Some v → truthy (cache v) = true →
  accessors (step e st) !! name = Some v.
Proof.
  intros He Hv Ht. destruct e as [c|name'|name' val]; simpl in *; [done| |].
  - destruct (get_state name' st) as [->|(v' & Hv' & Ha & ->)]; [done|].
    simpl. rewrite lookup_insert_ne; [done|].
    intros ->. unfold absent in Ha. congruence.
  - destruct (accessors st !! name') as [v'|] eqn:Hv'.
    + by rewrite (put_rejected name' v').
    + unfold put. by rewrite Hv'.
Qed.

Lemma non_mutating_run_keeps_cache es st name v :
  Forall non_mutating es →
  accessors st !! name = Some v → truthy (cache v) = true →
  accessors (run es st) !! name = Some v.
Proof.
  intros Hes. revert st. induction Hes as [|e es He _ IH]; intros st Hv Ht.
  - done.
  - simpl. fold (run es (step e st)). apply IH; [|done].
    by apply non_mutating_keeps_cache.
Qed.

(** X8.  Once a view has been read, every later read of it returns the same
    object for as long as no wrapped method is called: reads of this or of
    other views and rejected assignments in between do not disturb it. *)
Theorem view_object_stable st name es :
  reachable st →
  declared name st →
  Forall non_mutating es →
  ∃ a st1,
    get name st = (Return (JObject (ViewAddr a)), st1) ∧
    (get name (run es st1)).1 = Return (JObject (ViewAddr a)).
Proof.
  intros Hr [v Hv] Hes.
  destruct (get_reachable st name v Hr Hv)
    as (a & st1 & Hget & _ & _ & _ & _ & Hget').
  exists a, st1. split; [done|].
  assert (∃ v1, accessors st1 !! name = Some v1 ∧
                cache v1 = JObject (ViewAddr a)) as (v1 & Hv1 & Hc1).
  { unfold get in Hget'. destruct (accessors st1 !! name) as [v1|]; [|done].
    exists v1. split; [done|]. unfold getter in Hget'.
    destruct (truthy (cache v1)) eqn:Ht; [congruence|].
    injection Hget' as Ha Hst. apply (f_equal (λ s, length (heap s))) in Hst.
    simpl in Hst. rewrite length_app in Hst. simpl in Hst. lia. }
  assert (truthy (cache v1) = true) as Ht by by rewrite Hc1.
  rewrite (get_cached name v1); [by rewrite Hc1| |done].
  by apply non_mutating_run_keeps_cache.
Qed.

(** X9.  A wrapped call never hands out an old view object again: the first
    read after a completed call returns an object at a new address, and the
    object returned before the call is still in the heap, unchanged. *)
Theorem mutation_yields_new_object st name a st1 c (r : retval T) st2 :
  reachable st →
  declared name st →
  get name st = (Return (JObject (ViewAddr a)), st1) →
  invoke c st1 = (Return r, st2) →
  ∃ a' st3,
    get name st2 = (Return (JObject (ViewAddr a')), st3) ∧
    a' ≠ a ∧
    is_Some (heap st1 !! a) ∧
    heap st3 !! a = heap st1 !! a.
Proof.
  intros Hr [v Hv] Hget Hcall.
  destruct (get_reachable st name v Hr Hv)
    as (a0 & st0 & Hget0 & Ha & _ & _ & _ & _).
  rewrite Hget in Hget0. simplify_eq.
  assert (reachable st0) as Hr0.
  { replace st0 with (step (Read name) st) by (simpl; by rewrite Hget).
    apply reachable_step; [done|]. by exists v. }
  pose proof (reachable_invariant st0 Hr0) as Hinv0.
  assert (declared name st0) as [v0 Hv0].
  { destruct (get_state name st) as [Hs|(v' & _ & _ & Hs)];
      rewrite Hget in Hs; simpl in Hs; subst st0.
    - by exists v.
    - eexists. simpl. apply lookup_insert_eq. }
  destruct (decide (method_of c ∈ own_undefined st0)) as [Hm|Hm].
  { rewrite invoke_undefined in Hcall by done. congruence. }
  rewrite invoke_callable, wrapped_spec in Hcall by done. simplify_eq.
  eexists _, _. split.
  - apply (get_absent name (set_cache (JBool false) v0)); [|done]. simpl.
    rewrite lookup_invalidate, Hv0. rewrite decide_True; [done|].
    apply (inv_names st0 Hinv0). by exists v0.
  - simpl. apply lookup_lt_Some in Ha as Hlt.
    split; [lia|]. split; [by eauto|]. by rewrite lookup_app_l.
Qed.

(** ** [_clearIndices] *)

(** Applied to an object of the caller, [_clearIndices] stores the
    [CLEAR_CACHE] object under every name of the object's [_indexNames]. *)
Lemma _clearIndices_on_lookup names (props : gmap string jsval) name :
  name ∈ names → _clearIndices_on names props !! name = Some CLEAR_CACHE.
Proof.
  revert props. induction names as [|n names IH] using rev_ind;
    intros props Hin.
  { by apply elem_of_nil in Hin. }
  unfold _clearIndices_on in *. rewrite foldl_snoc, lookup_insert.
  case_decide; [done|]. apply IH.
  apply elem_of_app in Hin as [Hin|Hin]; [done|].
  apply list_elem_of_singleton in Hin. congruence.
Qed.

Lemma invalidate_idemp names (a : gmap string (view T V)) :
  invalidate names (invalidate names a) = invalidate names a.
Proof.
  apply map_eq. intros k. rewrite !lookup_invalidate.
  case_decide; [|done]. by destruct (a !! k).
Qed.

(** X10.  [_clearIndices] never throws, touches nothing but the caches, and
    running it a second time changes nothing more. *)
Theorem clearIndices_idempotent st :
  ∃ st',
    _clearIndices st = (Return tt, st') ∧
    elements st' = elements st ∧ raw st' = raw st ∧ heap st' = heap st ∧
    (∀ name, declared name st' ↔ declared name st) ∧
    _clearIndices st' = (Return tt, st').
Proof.
  eexists. split; [apply _clearIndices_spec|]. repeat split; try done.
  - unfold declared. simpl. by rewrite is_Some_invalidate.
  - unfold declared. simpl. by rewrite is_Some_invalidate.
  - rewrite _clearIndices_spec. simpl. rewrite invalidate_idemp.
    by destruct st.
Qed.


(** ** How the wrapped methods compose *)

Lemma orig_push_pop (l xs : list T) x :
  orig Pop (l ++ xs ++ [x]) = (l ++ xs, RElement x).
Proof.
  simpl. rewrite !app_assoc, last_snoc, length_app. simpl.
  replace (length (l ++ xs) + 1 - 1) with (length (l ++ xs)) by lia.
  by rewrite take_app_length.
Qed.

(** X11.  Pushing records and then popping returns the last record pushed
    and leaves both sequences as they were after pushing the others. *)
Theorem push_pop_roundtrip st xs x :
  push ∉ own_undefined st →
  pop ∉ own_undefined st →
  ∃ st2,
    invoke Pop (invoke (Push (xs ++ [x])) st).2 = (Return (RElement x), st2) ∧
    elements st2 = elements st ++ xs ∧
    raw st2 = raw st ++ xs.
Proof.
  intros Hpush Hpop. rewrite (invoke_callable (Push _)), wrapped_spec by done.
  cbn [snd]. rewrite invoke_callable, wrapped_spec by done.
  cbn [raw elements fst snd].
  change (orig (Push (xs ++ [x])) (raw st)).1 with (raw st ++ xs ++ [x]).
  change (orig (Push (xs ++ [x])) (elements st)).1
    with (elements st ++ xs ++ [x]).
  rewrite !orig_push_pop. eexists. by split.
Qed.

(** X12.  Inserting records at the front and then shifting returns the
    first record inserted and leaves the others in front of the old
    content. *)
Theorem unshift_shift_roundtrip st x xs :
  unshift ∉ own_undefined st →
  shift ∉ own_undefined st →
  ∃ st2,
    invoke Shift (invoke (Unshift (x :: xs)) st).2 =
      (Return (RElement x), st2) ∧
    elements st2 = xs ++ elements st ∧
    raw st2 = xs ++ raw st.
Proof.
  intros Hu Hs. rewrite (invoke_callable (Unshift _)), wrapped_spec by done.
  simpl. rewrite invoke_callable, wrapped_spec by done.
  eexists. by split.
Qed.

(** X13.  Reversing twice restores the order of both sequences; each call
    returns the array it was applied to. *)
Theorem reverse_twice st :
  reverse_ ∉ own_undefined st →
  ∃ st2,
    invoke Reverse (invoke Reverse st).2 = (Return RReceiver, st2) ∧
    elements st2 = elements st ∧
    raw st2 = raw st.
Proof.
  intros Hr. rewrite (invoke_callable Reverse st), wrapped_spec by done.
  simpl. rewrite invoke_callable, wrapped_spec by done.
  eexists. split; [done|]. simpl. by rewrite !reverse_involutive.
Qed.

(** X14.  On a reachable instance [push] returns the new length of the
    public sequence, although the value is computed on [raw]. *)
Theorem push_returns_public_length st xs :
  reachable st →
  push ∉ own_undefined st →
  ∃ st',
    invoke (Push xs) st = (Return (RLength (length (elements st'))), st') ∧
    length (elements st') = length (elements st) + length xs.
Proof.
  intros Hr Hpush. exists (wrapped (Push xs) st).2.
  rewrite invoke_callable by done. rewrite wrapped_spec. simpl.
  rewrite (inv_mirror st (reachable_invariant st Hr)).
  split; [done|]. by rewrite length_app.
Qed.

(** X15.  [pop] and [shift] on an empty collection return [undefined] and
    leave both sequences empty. *)
Theorem pop_shift_empty st c :
  reachable st →
  elements st = [] →
  c = Pop ∨ c = Shift →
  ∃ st',
    invoke c st = (Return RUndefined, st') ∧
    elements st' = [] ∧ raw st' = [].
Proof.
  intros Hr He Hc.
  assert (raw st = []) as Hraw
    by by rewrite <- (inv_mirror st (reachable_invariant st Hr)).
  assert (method_of c ∉ own_undefined st) as Hm.
  { destruct (reachable_own_undefined st Hr) as [-> | ->].
    - apply not_elem_of_nil.
    - rewrite !elem_of_cons, elem_of_nil. destruct Hc as [-> | ->]; simpl;
        intros [?|[?|[]]]; done. }
  rewrite invoke_callable, wrapped_spec by done. rewrite He, Hraw.
  destruct Hc as [-> | ->]; eexists; by split.
Qed.

(** ** Views after an update *)

(** X16.  A record pushed last is found under its key in every index view
    read afterwards. *)
Theorem push_then_index_lookup st name v xs x :
  reachable st →
  push ∉ own_undefined st →
  accessors st !! name = Some v →
  op v = indexBy_op →
  ∃ a st2 m,
    get name (invoke (Push (xs ++ [x])) st).2 =
      (Return (JObject (ViewAddr a)), st2) ∧
    heap st2 !! a = Some (Indexed m) ∧
    m !! propertyKey (from v x) = Some x.
Proof.
  intros Hr Hpush Hv Hop.
  pose proof (reachable_invariant st Hr) as Hinv.
  assert (reachable (invoke (Push (xs ++ [x])) st).2) as Hr1
    by exact (reachable_step (Call (Push (xs ++ [x]))) st Hr I).
  rewrite invoke_callable, wrapped_spec in * by done. simpl in *.
  set (st1 := State _ _ _ _ _ _) in *.
  assert (accessors st1 !! name = Some (set_cache (JBool false) v)) as Hv1.
  { subst st1. simpl. rewrite lookup_invalidate, Hv.
    rewrite decide_True; [done|]. apply (inv_names st Hinv). by exists v. }
  destruct (get_reachable st1 name _ Hr1 Hv1) as (a & st2 & Hget & Ha & _).
  simpl in Ha. rewrite Hop in Ha.
  exists a, st2, (indexBy (raw st ++ xs ++ [x]) (from v)).
  split; [done|]. split; [done|].
  rewrite lookup_indexBy, !app_assoc, filter_app, filter_cons, filter_nil.
  rewrite decide_True by done. by rewrite last_snoc.
Qed.

(** X17.  Reading a group-by-key view returns a mapping that binds each key
    to the records of the collection that resolve to it, in the order of the
    collection; a key no record resolves to is not bound. *)
Theorem group_view_partitions st name v :
  reachable st →
  accessors st !! name = Some v →
  op v = groupBy_op →
  ∃ a st' m,
    get name st = (Return (JObject (ViewAddr a)), st') ∧
    heap st' !! a = Some (Grouped m) ∧
    ∀ k, m !! k =
         match filter (λ r, propertyKey (from v r) = k) (raw st) with
         | [] => None
         | g => Some g
         end.
Proof.
  intros Hr Hv Hop.
  destruct (get_reachable st name v Hr Hv) as (a & st' & Hget & Ha & _).
  rewrite Hop in Ha. exists a, st', (groupBy (raw st) (from v)).
  split; [done|]. split; [done|]. intros k. apply lookup_groupBy.
Qed.

(** X18.  Every view of an empty collection is empty: an empty mapping for
    a group or index view, an empty sequence for an order view. *)
Theorem empty_collection_views st name v :
  reachable st →
  raw st = [] →
  accessors st !! name = Some v →
  ∃ a st',
    get name st = (Return (JObject (ViewAddr a)), st') ∧
    heap st' !! a = Some (empty_view (op v)).
Proof.
  intros Hr Hraw Hv.
  destruct (get_reachable st name v Hr Hv) as (a & st' & Hget & Ha & _).
  exists a, st'. split; [done|]. rewrite Ha, Hraw. by destruct (op v).
Qed.

End More.

(** ** The further properties at concrete inputs *)

Ltac sample_reachable :=
  repeat first
    [ apply (reachable_new cfg_all); by_evaluation
    | apply (reachable_new cfg_frozen); by_evaluation
    | apply (reachable_new cfg_group); by_evaluation
    | apply (reachable_new cfg_empty); by_evaluation
    | exact (reachable_step (Call (Push [d3])) st_all ltac:(sample_reachable) I) ].

Ltac callable :=
  match goal with
  | |- ?m ∉ own_undefined ?st =>
      let H := fresh in
      assert (own_undefined st = []) as H by by_evaluation;
      rewrite H; apply not_elem_of_nil
  end.

Lemma construction_postcondition_witness :
  new_Registry cfg_all = Return st_all ∧
  elements st_all = default [] (initialSet cfg_all) ∧
  toJSON st_all = default [] (initialSet cfg_all) ∧
  _indexNames st_all = declared_names cfg_all ∧
  NoDup (_indexNames st_all) ∧
  (∀ name, declared name st_all ↔ name ∈ declared_names cfg_all) ∧
  (∀ name v, accessors st_all !! name = Some v → absent (cache v)) ∧
  heap st_all = [].
Proof.
  assert (new_Registry cfg_all = Return st_all) as Hnew by by_evaluation.
  split; [exact Hnew|]. exact (construction_postcondition cfg_all st_all Hnew).
Defined.

Lemma configured_views_witness :
  new_Registry cfg_all = Return st_all ∧
  (∀ p, p ∈ default [] (group cfg_all) →
     ∃ v, accessors st_all !! inflectIndex p = Some v ∧
          op v = groupBy_op ∧ from v = pathGetter p) ∧
  (∀ p, p ∈ default [] (index cfg_all) →
     ∃ v, accessors st_all !! inflectIndex p = Some v ∧
          op v = indexBy_op ∧ from v = pathGetter p) ∧
  (∀ p, p ∈ default [] (order cfg_all) →
     ∃ v, accessors st_all !! inflectOrder p = Some v ∧
          op v = sortBy_op ∧ from v = pathGetter p).
Proof.
  assert (new_Registry cfg_all = Return st_all) as Hnew by by_evaluation.
  split; [exact Hnew|]. exact (configured_views cfg_all st_all Hnew).
Defined.

Lemma immutable_never_reenabled_witness :
  new_Registry cfg_frozen = Return st_frozen ∧
  immutable cfg_frozen = true ∧
  client_events [Call Pop; Read "byId"] st_frozen ∧
  (method_of (Push [d3]) = push ∨ method_of (Push [d3]) = splice) ∧
  invoke (Push [d3]) (run [Call Pop; Read "byId"] st_frozen) =
  (Throw (NotAFunctionTypeError (method_of (Push [d3]))),
   run [Call Pop; Read "byId"] st_frozen).
Proof.
  assert (new_Registry cfg_frozen = Return st_frozen) as Hnew by by_evaluation.
  assert (client_events [Call Pop; Read "byId"] st_frozen) as Hes.
  { split; [exact I|]. split; [|exact I]. eexists. by_evaluation. }
  assert (method_of (Push [d3]) = push ∨ method_of (Push [d3]) = splice)
    as Hm by (left; reflexivity).
  split; [exact Hnew|]. split; [reflexivity|]. split; [exact Hes|].
  split; [exact Hm|].
  exact (immutable_never_reenabled cfg_frozen st_frozen
           [Call Pop; Read "byId"] (Push [d3]) Hnew eq_refl Hes Hm).
Defined.

Lemma mutable_call_never_throws_witness :
  new_Registry cfg_all = Return st_all ∧
  immutable cfg_all = false ∧
  client_events [Call (Push [d3]); Read "byId"] st_all ∧
  (invoke Pop (run [Call (Push [d3]); Read "byId"] st_all)).1 =
  Return (orig Pop (raw (run [Call (Push [d3]); Read "byId"] st_all))).2.
Proof.
  assert (new_Registry cfg_all = Return st_all) as Hnew by by_evaluation.
  assert (client_events [Call (Push [d3]); Read "byId"] st_all) as Hes.
  { split; [exact I|]. split; [|exact I]. eexists. by_evaluation. }
  split; [exact Hnew|]. split; [reflexivity|]. split; [exact Hes|].
  exact (mutable_call_never_throws cfg_all st_all
           [Call (Push [d3]); Read "byId"] Pop Hnew eq_refl Hes).
Defined.

Lemma unshadowed_methods_callable_witness :
  reachable st_frozen ∧
  method_of (Pop : invocation doc) ≠ push ∧
  method_of (Pop : invocation doc) ≠ splice ∧
  ∃ st',
    invoke Pop st_frozen = (Return (orig Pop (raw st_frozen)).2, st') ∧
    elements st' = (orig Pop (elements st_frozen)).1 ∧
    raw st' = (orig Pop (raw st_frozen)).1.
Proof.
  assert (reachable st_frozen) as Hr by sample_reachable.
  assert (method_of (Pop : invocation doc) ≠ push) as H1 by discriminate.
  assert (method_of (Pop : invocation doc) ≠ splice) as H2 by discriminate.
  split; [exact Hr|]. split; [exact H1|]. split; [exact H2|].
  exact (unshadowed_methods_callable st_frozen Pop Hr H1 H2).
Defined.

Lemma view_object_stable_witness :
  reachable st_pushed ∧
  declared "byId" st_pushed ∧
  Forall (non_mutating (T := doc))
    [Read "inNOrder"; Assign "byId" (JString "x"); Read "byId"] ∧
  ∃ a st1,
    get "byId" st_pushed = (Return (JObject (ViewAddr a)), st1) ∧
    (get "byId"
       (run [Read "inNOrder"; Assign "byId" (JString "x"); Read "byId"]
            st1)).1 =
    Return (JObject (ViewAddr a)).
Proof.
  assert (reachable st_pushed) as Hr by sample_reachable.
  assert (declared "byId" st_pushed) as Hd by (exists v_byId; by_evaluation).
  assert (Forall (non_mutating (T := doc))
            [Read "inNOrder"; Assign "byId" (JString "x"); Read "byId"])
    as Hes by (repeat constructor; discriminate).
  split; [exact Hr|]. split; [exact Hd|]. split; [exact Hes|].
  exact (view_object_stable st_pushed "byId" _ Hr Hd Hes).
Defined.

Lemma mutation_yields_new_object_witness :
  reachable st_pushed ∧
  declared "byId" st_pushed ∧
  get "byId" st_pushed = (Return (JObject (ViewAddr 0)), st_read) ∧
  invoke Pop st_read = (Return (RElement d3), st_popped) ∧
  ∃ a' st3,
    get "byId" st_popped = (Return (JObject (ViewAddr a')), st3) ∧
    a' ≠ 0 ∧
    is_Some (heap st_read !! 0) ∧
    heap st3 !! 0 = heap st_read !! 0.
Proof.
  assert (reachable st_pushed) as Hr by sample_reachable.
  assert (declared "byId" st_pushed) as Hd by (exists v_byId; by_evaluation).
  assert (get "byId" st_pushed = (Return (JObject (ViewAddr 0)), st_read))
    as Hget by by_evaluation.
  assert (invoke Pop st_read = (Return (RElement d3), st_popped))
    as Hcall by by_evaluation.
  split; [exact Hr|]. split; [exact Hd|]. split; [exact Hget|].
  split; [exact Hcall|].
  exact (mutation_yields_new_object st_pushed "byId" 0 st_read Pop
           (RElement d3) st_popped Hr Hd Hget Hcall).
Defined.

Lemma push_pop_roundtrip_witness :
  (push ∉ own_undefined st_all) ∧
  (pop ∉ own_undefined st_all) ∧
  ∃ st2,
    invoke Pop (invoke (Push ([d2] ++ [d3])) st_all).2 =
      (Return (RElement d3), st2) ∧
    elements st2 = elements st_all ++ [d2] ∧
    raw st2 = raw st_all ++ [d2].
Proof.
  assert (push ∉ own_undefined st_all) as H1 by callable.
  assert (pop ∉ own_undefined st_all) as H2 by callable.
  split; [exact H1|]. split; [exact H2|].
  exact (push_pop_roundtrip st_all [d2] d3 H1 H2).
Defined.

Lemma unshift_shift_roundtrip_witness :
  (unshift ∉ own_undefined st_all) ∧
  (shift ∉ own_undefined st_all) ∧
  ∃ st2,
    invoke Shift (invoke (Unshift (d3 :: [d2])) st_all).2 =
      (Return (RElement d3), st2) ∧
    elements st2 = [d2] ++ elements st_all ∧
    raw st2 = [d2] ++ raw st_all.
Proof.
  assert (unshift ∉ own_undefined st_all) as H1 by callable.
  assert (shift ∉ own_undefined st_all) as H2 by callable.
  split; [exact H1|]. split; [exact H2|].
  exact (unshift_shift_roundtrip st_all d3 [d2] H1 H2).
Defined.

Lemma reverse_twice_witness :
  (reverse_ ∉ own_undefined st_all) ∧
  ∃ st2,
    invoke Reverse (invoke Reverse st_all).2 = (Return RReceiver, st2) ∧
    elements st2 = elements st_all ∧
    raw st2 = raw st_all.
Proof.
  assert (reverse_ ∉ own_undefined st_all) as H1 by callable.
  split; [exact H1|]. exact (reverse_twice st_all H1).
Defined.

Lemma push_returns_public_length_witness :
  reachable st_all ∧
  (push ∉ own_undefined st_all) ∧
  ∃ st',
    invoke (Push [d3]) st_all =
      (Return (RLength (length (elements st'))), st') ∧
    length (elements st') = length (elements st_all) + length [d3].
Proof.
  assert (reachable st_all) as Hr by sample_reachable.
  assert (push ∉ own_undefined st_all) as H1 by callable.
  split; [exact Hr|]. split; [exact H1|].
  exact (push_returns_public_length st_all [d3] Hr H1).
Defined.

Lemma pop_shift_empty_witness :
  reachable st_empty ∧
  elements st_empty = [] ∧
  ((Pop : invocation doc) = Pop ∨ (Pop : invocation doc) = Shift) ∧
  ∃ st',
    invoke Pop st_empty = (Return RUndefined, st') ∧
    elements st' = [] ∧ raw st' = [].
Proof.
  assert (reachable st_empty) as Hr by sample_reachable.
  assert (elements st_empty = []) as He by by_evaluation.
  assert ((Pop : invocation doc) = Pop ∨ (Pop : invocation doc) = Shift)
    as Hc by (left; reflexivity).
  split; [exact Hr|]. split; [exact He|]. split; [exact Hc|].
  exact (pop_shift_empty st_empty Pop Hr He Hc).
Defined.

Lemma push_then_index_lookup_witness :
  reachable st_all ∧
  (push ∉ own_undefined st_all) ∧
  accessors st_all !! "byId" = Some v_byId ∧
  op v_byId = indexBy_op ∧
  ∃ a st2 m,
    get "byId" (invoke (Push ([d2] ++ [d3])) st_all).2 =
      (Return (JObject (ViewAddr a)), st2) ∧
    heap st2 !! a = Some (Indexed m) ∧
    m !! propertyKey (from v_byId d3) = Some d3.
Proof.
  assert (reachable st_all) as Hr by sample_reachable.
  assert (push ∉ own_undefined st_all) as H1 by callable.
  assert (accessors st_all !! "byId" = Some v_byId) as Hv by by_evaluation.
  split; [exact Hr|]. split; [exact H1|]. split; [exact Hv|].
  split; [reflexivity|].
  exact (push_then_index_lookup st_all "byId" v_byId [d2] d3 Hr H1 Hv eq_refl).
Defined.

Lemma group_view_partitions_witness :
  reachable st_group ∧
  accessors st_group !! "byId" = Some v_byId_group ∧
  op v_byId_group = groupBy_op ∧
  ∃ a st' m,
    get "byId" st_group = (Return (JObject (ViewAddr a)), st') ∧
    heap st' !! a = Some (Grouped m) ∧
    ∀ k, m !! k =
         match filter (λ r, propertyKey (from v_byId_group r) = k)
                      (raw st_group) with
         | [] => None
         | g => Some g
         end.
Proof.
  assert (reachable st_group) as Hr by sample_reachable.
  assert (accessors st_group !! "byId" = Some v_byId_group) as Hv
    by by_evaluation.
  split; [exact Hr|]. split; [exact Hv|]. split; [reflexivity|].
  exact (group_view_partitions st_group "byId" v_byId_group Hr Hv eq_refl).
Defined.

Lemma empty_collection_views_witness :
  reachable st_empty ∧
  raw st_empty = [] ∧
  accessors st_empty !! "byId" = Some v_byId_new ∧
  ∃ a st',
    get "byId" st_empty = (Return (JObject (ViewAddr a)), st') ∧
    heap st' !! a = Some (empty_view (op v_byId_new)).
Proof.
  assert (reachable st_empty) as Hr by sample_reachable.
  assert (raw st_empty = []) as Hraw by by_evaluation.
  assert (accessors st_empty !! "byId" = Some v_byId_new) as Hv
    by by_evaluation.
  split; [exact Hr|]. split; [exact Hraw|]. split; [exact Hv|].
  exact (empty_collection_views st_empty "byId" v_byId_new Hr Hraw Hv).
Defined.
